(** * Subtitle-Translator: SRT codec, aligner, reference resolver, sampler

    Shallow embedding of [src/services/srtParser.ts] and of
    [getTrainingExamples] from [src/services/db.ts], with the properties
    stated for them in the specification.

    Strings are JavaScript strings: finite sequences of UTF-16 code units,
    here [list N].  Numbers used as subtitle ids are modelled by [Z]: the
    mathematical integer [parseInt] computes before it is converted to a
    Number.  The conversion is the identity on the safe integers
    (magnitude below 2^53), the range in which the model and the program
    agree on the numeric value; whether [parseInt] yields NaN does not
    depend on it. *)

From Stdlib Require Import ZArith NArith Lia ZifyBool DecimalPos DecimalFacts.
From stdpp Require Import base list gmap strings sorting.

Open Scope N_scope.

(** ** JavaScript built-ins used by the program *)

Module JS.

Abbreviation jsstring := (list N).

Definition LF : N := 10.
Definition CR : N := 13.
Definition SP : N := 32.

(** WhiteSpace and LineTerminator code units, as stripped by
    [String.prototype.trim] and skipped by [parseInt]. *)
Definition isWhiteSpace (c : N) : bool :=
  (c =? 9) || (c =? 10) || (c =? 11) || (c =? 12) || (c =? 13) || (c =? 32)
  || (c =? 160) || (c =? 5760) || ((8192 <=? c) && (c <=? 8202))
  || (c =? 8232) || (c =? 8233) || (c =? 8239) || (c =? 8287)
  || (c =? 12288) || (c =? 65279).

Fixpoint trimStart (s : jsstring) : jsstring :=
  match s with
  | [] => []
  | c :: r => if isWhiteSpace c then trimStart r else s
  end.

Definition trimEnd (s : jsstring) : jsstring := rev (trimStart (rev s)).

Definition trim (s : jsstring) : jsstring := trimEnd (trimStart s).

Fixpoint startsWith (p s : jsstring) : bool :=
  match p, s with
  | [], _ => true
  | _ :: _, [] => false
  | a :: p', b :: s' => (a =? b) && startsWith p' s'
  end.

(** [s.includes(p)] *)
Fixpoint includes (p s : jsstring) : bool :=
  startsWith p s ||
  match s with
  | [] => false
  | _ :: r => includes p r
  end.

Definition consHead (c : N) (ps : list jsstring) : list jsstring :=
  match ps with
  | [] => [[c]]
  | p :: ps' => (c :: p) :: ps'
  end.

(** [s.split(sep)] for a non-empty string separator: the pieces between
    the successive leftmost occurrences of [sep].  [skip] counts the code
    units of an occurrence that are still to be passed over. *)
Fixpoint splitFrom (sep : jsstring) (skip : nat) (s : jsstring) : list jsstring :=
  match s with
  | [] => [[]]
  | c :: r =>
      match skip with
      | S k => splitFrom sep k r
      | O => if startsWith sep s
             then [] :: splitFrom sep (length sep - 1) r
             else consHead c (splitFrom sep 0 r)
      end
  end.

Definition split (sep s : jsstring) : list jsstring := splitFrom sep 0 s.

(** [s.split(/\n\n+/)]: the pieces between the maximal runs of two or more
    line feeds.  [inRun] holds while such a run is being passed over. *)
Fixpoint splitBlankFrom (inRun : bool) (s : jsstring) : list jsstring :=
  match s with
  | [] => [[]]
  | c :: r =>
      if inRun && (c =? LF) then splitBlankFrom true r
      else if (c =? LF) && startsWith [LF] r then [] :: splitBlankFrom true r
      else consHead c (splitBlankFrom false r)
  end.

Definition splitBlank (s : jsstring) : list jsstring := splitBlankFrom false s.

(** [a.join(sep)] *)
Fixpoint join (sep : jsstring) (l : list jsstring) : jsstring :=
  match l with
  | [] => []
  | x :: r =>
      match r with
      | [] => x
      | _ :: _ => x ++ sep ++ join sep r
      end
  end.

(** [s.replace(/\r\n/g, '\n')] *)
Fixpoint replaceCRLF (s : jsstring) : jsstring :=
  match s with
  | [] => []
  | c :: r =>
      match r with
      | [] => [c]
      | d :: r' =>
          if (c =? CR) && (d =? LF) then LF :: replaceCRLF r'
          else c :: replaceCRLF r
      end
  end.

(** [s.replace(/c/g, d)] for single code units [c] and [d]. *)
Definition replaceAll (c d : N) (s : jsstring) : jsstring :=
  map (fun x => if x =? c then d else x) s.

Definition isDigit (c : N) : bool := (48 <=? c) && (c <=? 57).
Definition isLower (c : N) : bool := (97 <=? c) && (c <=? 122).
Definition isUpper (c : N) : bool := (65 <=? c) && (c <=? 90).

Fixpoint takeDigits (s : jsstring) : jsstring :=
  match s with
  | [] => []
  | c :: r => if isDigit c then c :: takeDigits r else []
  end.

Definition digitsValue (ds : jsstring) : Z :=
  fold_left (fun acc d => (10 * acc + Z.of_N (d - 48))%Z) ds 0%Z.

(** [parseInt(s, 10)]; [None] is NaN.  The result is the integer the
    digits write; the program holds it as a Number, which is this integer
    when it is a safe integer. *)
Definition parseInt (s : jsstring) : option Z :=
  let s1 := trimStart s in
  let '(sign, s2) :=
    match s1 with
    | c :: r => if c =? 45 then ((-1)%Z, r)
                else if c =? 43 then (1%Z, r) else (1%Z, s1)
    | [] => (1%Z, s1)
    end in
  match takeDigits s2 with
  | [] => None
  | ds => Some (sign * digitsValue ds)%Z
  end.

Fixpoint uintDigits (d : Decimal.uint) : jsstring :=
  match d with
  | Decimal.Nil => []
  | Decimal.D0 d => 48 :: uintDigits d
  | Decimal.D1 d => 49 :: uintDigits d
  | Decimal.D2 d => 50 :: uintDigits d
  | Decimal.D3 d => 51 :: uintDigits d
  | Decimal.D4 d => 52 :: uintDigits d
  | Decimal.D5 d => 53 :: uintDigits d
  | Decimal.D6 d => 54 :: uintDigits d
  | Decimal.D7 d => 55 :: uintDigits d
  | Decimal.D8 d => 56 :: uintDigits d
  | Decimal.D9 d => 57 :: uintDigits d
  end.

(** Number-to-string conversion of an integer, as a template literal
    performs it: the decimal digits, after a minus sign when negative
    (the program writes an exponent from 10^21 on, beyond the safe
    integers). *)
Definition numberToString (z : Z) : jsstring :=
  match z with
  | Z0 => [48]
  | Zpos p => uintDigits (Pos.to_uint p)
  | Zneg p => 45 :: uintDigits (Pos.to_uint p)
  end.

(** [/^\d+$/.test(s)] *)
Definition allDigits (s : jsstring) : bool :=
  match s with
  | [] => false
  | _ :: _ => forallb isDigit s
  end.

(** [/[a-z] [A-Z]/.test(s)] *)
Fixpoint lowerSpaceUpper (s : jsstring) : bool :=
  match s with
  | a :: r =>
      match r with
      | b :: c :: _ => (isLower a && (b =? SP) && isUpper c) || lowerSpaceUpper r
      | _ => false
      end
  | [] => false
  end.

(** Code units of a literal. *)
Definition lit (s : string) : jsstring :=
  map Ascii.N_of_ascii (String.list_ascii_of_string s).

End JS.

Import JS.

(** ** types.ts *)

Record SrtBlock := mkSrtBlock {
  id : Z;
  startTime : list N;
  endTime : list N;
  originalText : list N;
  translatedText : option (list N);
  isFromReference : option bool
}.

(** Truthiness of an optional string: defined and non-empty. *)
Definition truthy (o : option (list N)) : bool :=
  match o with
  | Some (_ :: _) => true
  | _ => false
  end.

(** ** srtParser.ts *)

(** The separator ['-->'] of the time line. *)
Definition ARROW : list N := [45; 45; 62].

(** [content.replace(/\r\n/g, '\n').replace(/\r/g, '\n')] *)
Definition normalize (content : list N) : list N :=
  replaceAll CR LF (replaceCRLF content).

(** Body of the loop of [parseSRT]: [None] where the source continues
    without pushing. *)
Definition parseBlock (block : list N) : option SrtBlock :=
  let lines := split [LF] (trim block) in
  if (length lines <? 3)%nat then None
  else
    match parseInt (nth 0 lines []) with
    | None => None
    | Some n =>
        let timeLine := nth 1 lines [] in
        if negb (includes ARROW timeLine) then None
        else
          let parts := map trim (split ARROW timeLine) in
          Some {| id := n;
                  startTime := nth 0 parts [];
                  endTime := nth 1 parts [];
                  originalText := join [LF] (drop 2 lines);
                  translatedText := None;
                  isFromReference := None |}
    end.

(** [parseSRT]: the blocks pushed for the candidates that pass every test,
    in the order of the content. *)
Definition parseSRT (content : list N) : list SrtBlock :=
  omap parseBlock (splitBlank (normalize content)).

(** [block.translatedText || block.originalText] *)
Definition textContent (block : SrtBlock) : list N :=
  if truthy (translatedText block)
  then default [] (translatedText block)
  else originalText block.

(** The template literal of [stringifySRT]. *)
Definition blockToString (block : SrtBlock) : list N :=
  numberToString (id block) ++ [LF] ++ startTime block
    ++ [SP] ++ ARROW ++ [SP] ++ endTime block ++ [LF] ++ textContent block.

Definition stringifySRT (blocks : list SrtBlock) : list N :=
  join [LF; LF] (map blockToString blocks).

(** [createReferenceMap]: the i-th pass of the loop over [0, count). *)
Definition referenceStep (originals translations : list SrtBlock)
    (map : gmap (list N) (list N)) (i : nat) : gmap (list N) (list N) :=
  match originals !! i, translations !! i with
  | Some o, Some t =>
      let key := trim (originalText o) in
      let value := trim (originalText t) in
      if truthy (Some key) && truthy (Some value) then <[key := value]> map else map
  | _, _ => map
  end.

(** [createReferenceMap]; the Map is read through lookups only, so its
    insertion order is not kept. *)
Definition createReferenceMap (originalSrt translatedSrt : list N)
    : gmap (list N) (list N) :=
  let originals := parseSRT originalSrt in
  let translations := parseSRT translatedSrt in
  let count := Nat.min (length originals) (length translations) in
  fold_left (referenceStep originals translations) (seq 0 count) ∅.

(** [translatedBlocks.forEach(b => translatedMap.set(b.id, b))] *)
Definition translatedMapOf (translatedBlocks : list SrtBlock) : gmap Z SrtBlock :=
  fold_left (fun m b => <[id b := b]> m) translatedBlocks ∅.

(** [{...orig, translatedText: t}] *)
Definition withTranslation (orig : SrtBlock) (t : list N) : SrtBlock :=
  {| id := id orig;
     startTime := startTime orig;
     endTime := endTime orig;
     originalText := originalText orig;
     translatedText := Some t;
     isFromReference := isFromReference orig |}.

(** The value of [trans] when the callback of [alignSrts] reaches its
    last conditional. *)
Definition findTrans (translatedMap : gmap Z SrtBlock)
    (translatedBlocks : list SrtBlock) (orig : SrtBlock) (index : nat)
    : option SrtBlock :=
  match translatedMap !! id orig with
  | Some trans => Some trans
  | None =>
      if (index <? length translatedBlocks)%nat then
        match translatedBlocks !! index with
        | Some candidate =>
            if bool_decide (startTime candidate = startTime orig)
            then Some candidate else None
        | None => None
        end
      else None
  end.

(** [originalBlocks.forEach((orig, index) => ...)] from position [index]. *)
Fixpoint alignFrom (translatedMap : gmap Z SrtBlock)
    (translatedBlocks : list SrtBlock) (index : nat)
    (originalBlocks : list SrtBlock) : list SrtBlock :=
  match originalBlocks with
  | [] => []
  | orig :: rest =>
      match findTrans translatedMap translatedBlocks orig index with
      | Some trans =>
          withTranslation orig (originalText trans)
            :: alignFrom translatedMap translatedBlocks (S index) rest
      | None => alignFrom translatedMap translatedBlocks (S index) rest
      end
  end.

Definition alignSrts (originalContent translatedContent : list N) : list SrtBlock :=
  let originalBlocks := parseSRT originalContent in
  let translatedBlocks := parseSRT translatedContent in
  let translatedMap := translatedMapOf translatedBlocks in
  alignFrom translatedMap translatedBlocks 0 originalBlocks.

Record Example := mkExample {
  original : list N;
  translated : list N
}.

(** The example [extractStyleExamples] pushes for an aligned block. *)
Definition styleExample (block : SrtBlock) : Example :=
  {| original := replaceAll LF SP (trim (originalText block));
     translated := replaceAll LF SP (default [] (translatedText block)) |}.

(** The inclusion test of [extractStyleExamples], given the examples
    collected so far. *)
Definition styleIncluded (examples : list Example) (block : SrtBlock) : bool :=
  let text := trim (originalText block) in
  let hasProperNoun := lowerSpaceUpper text in
  hasProperNoun || ((length examples <? 20)%nat && (20 <? length text)%nat).

(** The loop of [extractStyleExamples] over the remaining aligned blocks. *)
Fixpoint styleLoop (blocks : list SrtBlock) (examples : list Example) : list Example :=
  match blocks with
  | [] => examples
  | block :: rest =>
      if negb (truthy (translatedText block)) then styleLoop rest examples
      else
        let examples' :=
          if styleIncluded examples block
          then examples ++ [styleExample block] else examples in
        if (40 <=? length examples')%nat then examples'
        else styleLoop rest examples'
  end.

Definition extractStyleExamples (originalSrt translatedSrt : list N) : list Example :=
  styleLoop (alignSrts originalSrt translatedSrt) [].

(** ** db.ts *)

Record TranslationProject := mkProject {
  projectId : list N;
  fileName : list N;
  createdAt : Z;
  blocks : list SrtBlock;
  isExternalImport : option bool
}.

(** [projects.sort((a, b) => b.createdAt - a.createdAt)] is a stable sort
    by decreasing [createdAt]; [insertProject] puts a record in front of
    the sorted records that come after it in the store. *)
Fixpoint insertProject (p : TranslationProject) (sorted : list TranslationProject)
    : list TranslationProject :=
  match sorted with
  | [] => [p]
  | q :: r =>
      if (createdAt p <? createdAt q)%Z then q :: insertProject p r
      else p :: sorted
  end.

(** [getAllProjects], on the records [store.getAll()] delivers. *)
Definition getAllProjects (stored : list TranslationProject) : list TranslationProject :=
  foldr insertProject [] stored.

Definition isTrainingProject (p : TranslationProject) : bool :=
  bool_decide (isExternalImport p = Some true)
  || existsb (fun b => truthy (translatedText b)) (blocks p).

Definition validBlock (b : SrtBlock) : bool :=
  truthy (Some (originalText b))
  && truthy (translatedText b)
  && (10 <? length (originalText b))%nat
  && negb (allDigits (originalText b)).

Definition trainingExample (block : SrtBlock) : Example :=
  {| original := replaceAll LF SP (originalText block);
     translated := replaceAll LF SP (default [] (translatedText block)) |}.

(** Outcome of a loop over blocks: it ran to its end, or it returned. *)
Inductive flow :=
  | Continue (examples : list Example)
  | Return (examples : list Example).

(** The inner loop of [getTrainingExamples]. *)
Fixpoint pushBlocks (limit : Z) (bs : list SrtBlock) (examples : list Example) : flow :=
  match bs with
  | [] => Continue examples
  | block :: rest =>
      let examples' := examples ++ [trainingExample block] in
      if (limit <=? Z.of_nat (length examples'))%Z then Return examples'
      else pushBlocks limit rest examples'
  end.

(** The outer loop of [getTrainingExamples]. *)
Fixpoint projectLoop (limit : Z) (trainingProjects : list TranslationProject)
    (examples : list Example) : list Example :=
  match trainingProjects with
  | [] => examples
  | project :: rest =>
      let validBlocks := List.filter validBlock (blocks project) in
      match pushBlocks limit (take 10 validBlocks) examples with
      | Return examples' => examples'
      | Continue examples' => projectLoop limit rest examples'
      end
  end.

(** [getTrainingExamples(limit)], on the stored records. *)
Definition getTrainingExamples (limit : Z) (stored : list TranslationProject)
    : list Example :=
  let projects := getAllProjects stored in
  let trainingProjects := List.filter isTrainingProject projects in
  projectLoop limit trainingProjects [].

(** What a project contributes when the limit does not cut it short. *)
Definition projectExamples (p : TranslationProject) : list Example :=
  map trainingExample (take 10 (List.filter validBlock (blocks p))).

(** ** geminiService.ts: translateBatch *)

Definition BATCH_SIZE : nat := 20.

(** The pre-fill pass over a block: [referenceMap] is [None] for null. *)
Definition prefill (referenceMap : option (gmap (list N) (list N)))
    (block : SrtBlock) : SrtBlock :=
  match referenceMap with
  | None => block
  | Some m =>
      match m !! trim (originalText block) with
      | Some v =>
          {| id := id block;
             startTime := startTime block;
             endTime := endTime block;
             originalText := originalText block;
             translatedText := Some v;
             isFromReference := Some true |}
      | None => block
      end
  end.

(** The assignments to [resultBlocks[blockIndex]] for a translation. *)
Definition setTranslated (block : SrtBlock) (t : list N) : SrtBlock :=
  {| id := id block;
     startTime := startTime block;
     endTime := endTime block;
     originalText := originalText block;
     translatedText := Some t;
     isFromReference := Some false |}.

(** The callback of [translations.forEach]: the first block with the id
    of the translation is updated, if there is one. *)
Definition applyTranslation (resultBlocks : list SrtBlock) (t : Z * list N)
    : list SrtBlock :=
  match list_find (λ b, id b = t.1) resultBlocks with
  | Some (blockIndex, block) => <[blockIndex := setTranslated block t.2]> resultBlocks
  | None => resultBlocks
  end.

(** What [translateBatch] has done so far: the blocks it will return, the
    calls of [onProgress] and the prompt data of the requests sent, both
    latest last. *)
Record BatchState := mkBatchState {
  resultBlocks : list SrtBlock;
  progressCalls : list (nat * list N);
  requests : list (list (Z * list N))
}.

Definition report (st : BatchState) (current : nat) (message : list N) : BatchState :=
  {| resultBlocks := resultBlocks st;
     progressCalls := progressCalls st ++ [(current, message)];
     requests := requests st |}.

Definition startMessage (i batchEnd : nat) : list N :=
  lit "Translating lines " ++ numberToString (Z.of_nat (i + 1)) ++ lit "-"
  ++ numberToString (Z.of_nat batchEnd) ++ lit " of new content...".

Section TranslateBatch.

(** The translation service: what the request sent for the batch that
    starts at [i] with the given prompt data comes back as, parsed; [None]
    when the call, the empty-response test or [JSON.parse] throws.  An
    answer is an array of objects with an id and a translated text, as
    the response schema asks.  The system instruction, built from the
    glossary and the examples, reaches the result only through this
    answer. *)
Variable generateContent : nat → list (Z * list N) → option (list (Z * list N)).

(** One pass of the batch loop, for a batch that starts at [i]. *)
Definition batchStep (blocksLength : nat) (blocksToTranslate : list SrtBlock)
    (i : nat) (st : BatchState) : BatchState :=
  let totalToTranslate := length blocksToTranslate in
  let batchEnd := Nat.min (i + BATCH_SIZE) totalToTranslate in
  let currentBatch := take BATCH_SIZE (drop i blocksToTranslate) in
  let st1 := report st (blocksLength - totalToTranslate + i) (startMessage i batchEnd) in
  let promptData := map (λ b, (id b, originalText b)) currentBatch in
  let st2 :=
    {| resultBlocks :=
         match generateContent i promptData with
         | Some translations =>
             fold_left applyTranslation translations (resultBlocks st1)
         | None => resultBlocks st1
         end;
       progressCalls := progressCalls st1;
       requests := requests st1 ++ [promptData] |} in
  report st2 (blocksLength - totalToTranslate + batchEnd) (lit "Processed batch...").

(** [for (let i = 0; i < totalToTranslate; i += BATCH_SIZE)] from [i], in
    at most [fuel] passes. *)
Fixpoint batchLoop (fuel : nat) (blocksLength : nat)
    (blocksToTranslate : list SrtBlock) (i : nat) (st : BatchState) : BatchState :=
  match fuel with
  | O => st
  | S fuel' =>
      if (i <? length blocksToTranslate)%nat
      then batchLoop fuel' blocksLength blocksToTranslate (i + BATCH_SIZE)
             (batchStep blocksLength blocksToTranslate i st)
      else st
  end.

(** [translateBatch]; every pass moves [i] forward, so one pass per block
    to translate is fuel enough. *)
Definition translateBatch (blocks : list SrtBlock)
    (referenceMap : option (gmap (list N) (list N))) : BatchState :=
  let prefilled := map (prefill referenceMap) blocks in
  let blocksToTranslate :=
    List.filter (λ b, negb (truthy (translatedText b))) prefilled in
  let totalToTranslate := length blocksToTranslate in
  if (totalToTranslate =? 0)%nat
  then {| resultBlocks := prefilled;
          progressCalls :=
            [(length blocks, lit "All lines matched from reference file.")];
          requests := [] |}
  else batchLoop totalToTranslate (length blocks) blocksToTranslate 0
         {| resultBlocks := prefilled; progressCalls := []; requests := [] |}.

End TranslateBatch.

(** ** TrainingUpload: the examples of differences in handleProcess *)

Record DiffExample := mkDiffExample {
  diffOriginal : list N;
  aiDraft : list N;
  humanEdit : list N
}.

(** [new Map(blocks.map(b => [b.id, b.originalText]))] *)
Definition textMapOf (blocks : list SrtBlock) : gmap Z (list N) :=
  fold_left (λ m b, <[id b := originalText b]> m) blocks ∅.

(** The test under which an original block gives an example. *)
Definition differs (aiTxt humanTxt : option (list N)) : bool :=
  truthy aiTxt && truthy humanTxt
  && negb (bool_decide (trim (default [] aiTxt) = trim (default [] humanTxt))).

(** The loop over [originalBlocks] that collects [diffExamples]. *)
Fixpoint diffLoop (aiMap humanMap : gmap Z (list N))
    (originalBlocks : list SrtBlock) (diffExamples : list DiffExample)
    : list DiffExample :=
  match originalBlocks with
  | [] => diffExamples
  | orig :: rest =>
      let aiTxt := aiMap !! id orig in
      let humanTxt := humanMap !! id orig in
      let diffExamples' :=
        if differs aiTxt humanTxt
        then diffExamples
             ++ [{| diffOriginal := replaceAll LF SP (originalText orig);
                    aiDraft := replaceAll LF SP (default [] aiTxt);
                    humanEdit := replaceAll LF SP (default [] humanTxt) |}]
        else diffExamples in
      if (20 <=? length diffExamples')%nat then diffExamples'
      else diffLoop aiMap humanMap rest diffExamples'
  end.

Definition diffExamplesOf (originalText aiText humanText : list N) : list DiffExample :=
  let originalBlocks := parseSRT originalText in
  let aiBlocks := parseSRT aiText in
  let humanBlocks := parseSRT humanText in
  diffLoop (textMapOf aiBlocks) (textMapOf humanBlocks) originalBlocks [].

(** ** Inputs with other line endings *)

(** [s] with every line feed replaced by [br]. *)
Definition withLineBreaks (br : list N) (s : list N) : list N :=
  flat_map (λ c, if c =? LF then br else [c]) s.

(** ** Well-formed blocks for the round trip *)

Definition noCU (c : N) (s : list N) : bool := forallb (λ x, negb (x =? c)) s.

Definition endsVisible (s : list N) : bool :=
  match last s with
  | Some d => negb (isWhiteSpace d)
  | None => false
  end.

(** A text that survives the split into blocks and the trim: no carriage
    return, no blank line, no line feed in front, no white space at the
    end (so it is not empty). *)
Definition cleanText (t : list N) : bool :=
  noCU CR t && negb (includes [LF; LF] t) && negb (startsWith [LF] t)
  && endsVisible t.

(** A time that survives the split at the arrow and the trim: one line,
    no arrow, no white space around it. *)
Definition cleanTime (t : list N) : bool :=
  noCU CR t && noCU LF t && negb (includes ARROW t) && bool_decide (trim t = t).

(** Integers that Numbers hold exactly. *)
Definition safeInteger (z : Z) : bool := (Z.abs z <=? 9007199254740991)%Z.

(** The contents all of whose parsed ids are safe integers: on these the
    ids of the model are the Numbers of the program. *)
Definition safeIds (content : list N) : Prop :=
  Forall (λ b, safeInteger (id b) = true) (parseSRT content).

(** ** What parseInt reads of a line *)

(** The line after its sign, if it starts with one. *)
Definition afterSign (s : list N) : list N :=
  match s with
  | c :: r => if (c =? 45) || (c =? 43) then r else s
  | [] => []
  end.

Definition signOf (s : list N) : Z :=
  match s with
  | c :: _ => if c =? 45 then (-1)%Z else 1%Z
  | [] => 1%Z
  end.

(** The decimal digits a line begins with, after leading white space and
    an optional sign. *)
Definition leadingDigits (line : list N) : list N :=
  takeDigits (afterSign (trimStart line)).

(** The integer these digits write, with the sign. *)
Definition readInteger (line : list N) : Z :=
  (signOf (trimStart line) * digitsValue (leadingDigits line))%Z.

Definition wellFormed (b : SrtBlock) : bool :=
  safeInteger (id b) && cleanTime (startTime b) && cleanTime (endTime b)
  && cleanText (default (originalText b) (translatedText b)).

(** The second line of a serialized block. *)
Definition timeLine (start stop : list N) : list N :=
  start ++ [SP] ++ ARROW ++ [SP] ++ stop.

(** What the round trip makes of a block. *)
Definition reparsed (b : SrtBlock) : SrtBlock :=
  {| id := id b;
     startTime := startTime b;
     endTime := endTime b;
     originalText := default (originalText b) (translatedText b);
     translatedText := None;
     isFromReference := None |}.

(** ** Sample data *)

Definition cue (n : string) (t1 t2 text : string) : list N :=
  lit n ++ [LF] ++ lit t1 ++ [SP] ++ ARROW ++ [SP] ++ lit t2 ++ [LF] ++ lit text.

Definition sample1 : list N :=
  cue "1" "00:00:01,000" "00:00:02,000" "Hello World" ++ [LF; LF]
  ++ cue "2" "00:00:03,000" "00:00:04,000" "Goodbye".

Definition sample2 : list N :=
  cue "1" "00:00:01,000" "00:00:02,000" "Mingalaba" ++ [LF; LF]
  ++ cue "2" "00:00:03,000" "00:00:04,000" "Ta ta" ++ [LF; LF]
  ++ cue "2" "00:00:05,000" "00:00:06,000" "Bye bye".

(** [sample1] renumbered from 3, with other times. *)
Definition sample3 : list N :=
  cue "3" "00:00:01,500" "00:00:02,000" "Mingalaba" ++ [LF; LF]
  ++ cue "4" "00:00:03,500" "00:00:04,000" "Ta ta".

(** [sample1] renumbered from 3, with the same start times. *)
Definition sample6 : list N :=
  cue "3" "00:00:01,000" "00:00:02,500" "Mingalaba" ++ [LF; LF]
  ++ cue "4" "00:00:03,000" "00:00:04,500" "Ta ta".

(** A track in which a line recurs, and its translation. *)
Definition sample4 : list N :=
  cue "1" "00:00:01,000" "00:00:02,000" "Intro song" ++ [LF; LF]
  ++ cue "2" "00:00:03,000" "00:00:04,000" "Intro song".

Definition sample5 : list N :=
  cue "1" "00:00:01,000" "00:00:02,000" "First rendering" ++ [LF; LF]
  ++ cue "2" "00:00:03,000" "00:00:04,000" "Second rendering".

(** The block [parseSRT] makes of a cue. *)
Definition parsedCue (n : Z) (t1 t2 text : string) : SrtBlock :=
  {| id := n;
     startTime := lit t1;
     endTime := lit t2;
     originalText := lit text;
     translatedText := None;
     isFromReference := None |}.

(** The blocks of [sample1] and [sample2]. *)
Definition a1 : SrtBlock := parsedCue 1 "00:00:01,000" "00:00:02,000" "Hello World".
Definition a2 : SrtBlock := parsedCue 2 "00:00:03,000" "00:00:04,000" "Goodbye".
Definition b1 : SrtBlock := parsedCue 1 "00:00:01,000" "00:00:02,000" "Mingalaba".
Definition b2 : SrtBlock := parsedCue 2 "00:00:03,000" "00:00:04,000" "Ta ta".
Definition b3 : SrtBlock := parsedCue 2 "00:00:05,000" "00:00:06,000" "Bye bye".

(** A cue whose first line is digits followed by letters. *)
Definition mixedCue : list N := cue "12abc" "00:00:01,000" "00:00:02,000" "Hello".

(** A cue whose first line has no digit. *)
Definition badCue : list N := cue "abc" "00:00:01,000" "00:00:02,000" "Hello".

(** A block whose text ends in a space. *)
Definition trailingSpace : SrtBlock :=
  parsedCue 1 "00:00:01,000" "00:00:02,000" "Hello ".

(** A block with a translation and one without. *)
Definition translatedPair : list SrtBlock :=
  [withTranslation a1 (lit "Mingalaba"); a2].

(** A block whose translation is the empty string. *)
Definition emptyTranslation : SrtBlock :=
  {| id := 1;
     startTime := lit "00:00:01,000";
     endTime := lit "00:00:02,000";
     originalText := lit "Hello";
     translatedText := Some [];
     isFromReference := None |}.

(** A stored block with a translation, and a project of ten of them. *)
Definition storedBlock (tag : string) (n : nat) : SrtBlock :=
  {| id := Z.of_nat n;
     startTime := lit "00:00:01,000";
     endTime := lit "00:00:02,000";
     originalText := lit tag ++ lit " says line number " ++ numberToString (Z.of_nat n);
     translatedText := Some (lit "translation " ++ numberToString (Z.of_nat n));
     isFromReference := None |}.

Definition storedProject (tag : string) (created : Z) : TranslationProject :=
  {| projectId := lit tag;
     fileName := lit tag ++ lit ".srt";
     createdAt := created;
     blocks := map (storedBlock tag) (seq 1 10);
     isExternalImport := Some true |}.

Definition sampleStore : list TranslationProject :=
  [storedProject "b" 200; storedProject "c" 300; storedProject "a" 100].

(** * Properties *)

(** ** The program on the sample data *)

Example parseSRT_sample1 : parseSRT sample1 = [a1; a2].
Proof. vm_compute. reflexivity. Qed.

Example parseSRT_crlf :
  parseSRT (cue "1" "00:00:01,000" "00:00:02,000" "Hello World" ++ [CR; LF; CR; LF; CR; LF]
            ++ cue "2" "00:00:03,000" "00:00:04,000" "Goodbye" ++ [CR; LF])
  = [a1; a2].
Proof. vm_compute. reflexivity. Qed.

Example stringifySRT_parseSRT_sample1 : stringifySRT (parseSRT sample1) = sample1.
Proof. vm_compute. reflexivity. Qed.

Example parseSRT_two_lines : parseSRT (lit "1" ++ [LF] ++ lit "00:00:01,000 --> 00:00:02,000") = [].
Proof. vm_compute. reflexivity. Qed.

Example alignSrts_sample :
  alignSrts sample1 sample2
  = [withTranslation a1 (lit "Mingalaba"); withTranslation a2 (lit "Bye bye")].
Proof. vm_compute. reflexivity. Qed.

Example alignSrts_shifted_sample : alignSrts sample1 sample3 = [].
Proof. vm_compute. reflexivity. Qed.

Example extractStyleExamples_sample :
  extractStyleExamples sample1 sample2
  = [{| original := lit "Hello World"; translated := lit "Mingalaba" |}].
Proof. vm_compute. reflexivity. Qed.

Example createReferenceMap_sample :
  createReferenceMap sample4 sample5 !! lit "Intro song" = Some (lit "Second rendering").
Proof. vm_compute. reflexivity. Qed.

Example getTrainingExamples_sample :
  map original (getTrainingExamples 2 sampleStore)
  = [lit "c says line number 1"; lit "c says line number 2"].
Proof. vm_compute. reflexivity. Qed.

(** ** extractStyleExamples: the caps *)

Section StyleLoop.

Lemma styleLoop_inv (blocks : list SrtBlock) :
  ∀ acc : list Example, (length acc < 40)%nat →
  ∃ ext : list Example,
    styleLoop blocks acc = acc ++ ext
    ∧ (length (acc ++ ext) ≤ 40)%nat
    ∧ ∀ j e, ext !! j = Some e → (20 ≤ length acc + j)%nat →
        ∃ block, block ∈ blocks ∧ e = styleExample block
                 ∧ lowerSpaceUpper (trim (originalText block)) = true.
Proof.
  induction blocks as [|block rest IH]; intros acc Hacc; cbn [styleLoop].
  - exists []. rewrite app_nil_r. split; [done|]. split; [lia|].
    intros j e Hj. by rewrite lookup_nil in Hj.
  - destruct (truthy (translatedText block)); cbn [negb].
    2:{ destruct (IH acc Hacc) as (ext & -> & Hlen & Hprov).
        exists ext. split; [done|]. split; [done|].
        intros j e Hj Hge. destruct (Hprov j e Hj Hge) as (b & Hb & He).
        exists b. split; [by apply list_elem_of_further | done]. }
    cbv zeta. destruct (styleIncluded acc block) eqn:Hinc.
    2:{ destruct (40 <=? length acc)%nat eqn:H40.
        { apply Nat.leb_le in H40. lia. }
        destruct (IH acc Hacc) as (ext & -> & Hlen & Hprov).
        exists ext. split; [done|]. split; [done|].
        intros j e Hj Hge. destruct (Hprov j e Hj Hge) as (b & Hb & He).
        exists b. split; [by apply list_elem_of_further | done]. }
    assert (Hhere : (20 ≤ length acc)%nat →
                    lowerSpaceUpper (trim (originalText block)) = true).
    { intros Hge. unfold styleIncluded in Hinc.
      apply orb_true_iff in Hinc as [Hp | Hsoft]; [done|].
      apply andb_true_iff in Hsoft as [Hlt _].
      apply Nat.ltb_lt in Hlt. lia. }
    destruct (40 <=? length (acc ++ [styleExample block]))%nat eqn:H40.
    + exists [styleExample block]. split; [done|].
      rewrite length_app in *. simpl in *. split; [lia|].
      intros j e Hj Hge. destruct j as [|j]; simpl in Hj; [|by rewrite lookup_nil in Hj].
      injection Hj as <-. exists block. split; [apply list_elem_of_here|].
      split; [done|]. apply Hhere. lia.
    + apply Nat.leb_gt in H40.
      destruct (IH (acc ++ [styleExample block]) H40) as (ext & -> & Hlen & Hprov).
      exists (styleExample block :: ext). rewrite <- app_assoc in *. simpl in *.
      split; [done|]. split; [done|].
      intros j e Hj Hge. destruct j as [|j]; simpl in Hj.
      * injection Hj as <-. exists block. split; [apply list_elem_of_here|].
        split; [done|]. apply Hhere. lia.
      * destruct (Hprov j e Hj) as (b & Hb & He).
        { rewrite length_app. simpl. lia. }
        exists b. split; [by apply list_elem_of_further | done].
Qed.

End StyleLoop.

(** C4. [extractStyleExamples] returns at most 40 examples; every example
    at a position after the 20th is the example of an aligned pair whose
    trimmed original text has a lowercase letter, a space and an uppercase
    letter in a row; and once 20 examples are collected the inclusion test
    is the proper-noun test alone. *)
Theorem extractStyleExamples_caps (originalSrt translatedSrt : list N) :
  let aligned := alignSrts originalSrt translatedSrt in
  let examples := extractStyleExamples originalSrt translatedSrt in
  (length examples ≤ 40)%nat
  ∧ (∀ i e, (20 ≤ i)%nat → examples !! i = Some e →
       ∃ block, block ∈ aligned ∧ e = styleExample block
                ∧ lowerSpaceUpper (trim (originalText block)) = true)
  ∧ (∀ collected block, (20 ≤ length collected)%nat →
       styleIncluded collected block
       = lowerSpaceUpper (trim (originalText block))).
Proof.
  intros aligned examples. subst examples. unfold extractStyleExamples.
  fold aligned.
  destruct (styleLoop_inv aligned []) as (ext & Heq & Hlen & Hprov);
    [simpl; lia|].
  rewrite Heq. simpl in *. split; [done|]. split.
  - intros i e Hi Hlook. by apply (Hprov i e).
  - intros collected block Hge. unfold styleIncluded.
    destruct (length collected <? 20)%nat eqn:Hlt.
    + apply Nat.ltb_lt in Hlt. lia.
    + simpl. by rewrite orb_false_r.
Qed.

(** ** getTrainingExamples: the limit *)

Section Sampler.

Variable limit : Z.
Hypothesis limit_pos : (1 ≤ limit)%Z.

Lemma pushBlocks_spec (bs : list SrtBlock) :
  ∀ acc : list Example, (Z.of_nat (length acc) < limit)%Z →
  match pushBlocks limit bs acc with
  | Return r =>
      r = take (Z.to_nat limit) (acc ++ map trainingExample bs)
      ∧ Z.of_nat (length r) = limit
  | Continue r =>
      r = acc ++ map trainingExample bs ∧ (Z.of_nat (length r) < limit)%Z
  end.
Proof using limit_pos.
  induction bs as [|block rest IH]; intros acc Hacc; cbn [pushBlocks map].
  - by rewrite app_nil_r.
  - destruct (limit <=? Z.of_nat (length (acc ++ [trainingExample block])))%Z eqn:Hle.
    + apply Z.leb_le in Hle. rewrite length_app in *. simpl in Hle.
      assert (Hlen : Z.to_nat limit = length (acc ++ [trainingExample block])).
      { rewrite length_app. simpl. lia. }
      split.
      * rewrite Hlen.
        replace (acc ++ trainingExample block :: map trainingExample rest)
          with ((acc ++ [trainingExample block]) ++ map trainingExample rest)
          by (by rewrite <- app_assoc).
        by rewrite take_app_length.
      * simpl. lia.
    + apply Z.leb_gt in Hle. specialize (IH _ Hle).
      by rewrite <- app_assoc in IH.
Qed.

Lemma projectLoop_spec (ps : list TranslationProject) :
  ∀ acc : list Example, (Z.of_nat (length acc) < limit)%Z →
  projectLoop limit ps acc
  = take (Z.to_nat limit) (acc ++ concat (map projectExamples ps)).
Proof using limit_pos.
  induction ps as [|p rest IH]; intros acc Hacc; cbn [projectLoop map concat].
  - rewrite app_nil_r, take_ge; [done | lia].
  - pose proof (pushBlocks_spec (take 10 (List.filter validBlock (blocks p))) acc Hacc) as Hpush.
    fold (projectExamples p) in Hpush.
    destruct (pushBlocks limit _ acc) as [r|r]; destruct Hpush as [-> Hlen].
    + rewrite IH by done. by rewrite <- app_assoc.
    + rewrite app_assoc. symmetry. apply take_app_le.
      rewrite length_take in Hlen. lia.
Qed.

End Sampler.

Lemma insertProject_elem (p q : TranslationProject) (l : list TranslationProject) :
  q ∈ insertProject p l ↔ q = p ∨ q ∈ l.
Proof.
  induction l as [|x l IH]; simpl.
  - rewrite list_elem_of_singleton. rewrite elem_of_nil. tauto.
  - destruct (createdAt p <? createdAt x)%Z.
    + rewrite !elem_of_cons, IH. tauto.
    + rewrite !elem_of_cons. tauto.
Qed.

Lemma insertProject_sorted (p : TranslationProject) (l : list TranslationProject) :
  StronglySorted (λ a b, (createdAt b ≤ createdAt a)%Z) l →
  StronglySorted (λ a b, (createdAt b ≤ createdAt a)%Z) (insertProject p l).
Proof.
  induction 1 as [|x l Hl IH Hx]; simpl.
  - repeat constructor.
  - destruct (createdAt p <? createdAt x)%Z eqn:Hlt.
    + apply Z.ltb_lt in Hlt. constructor; [done|].
      apply Forall_forall. intros q Hq.
      apply insertProject_elem in Hq as [-> | Hq]; [lia|].
      by apply (proj1 (Forall_forall _ _) Hx).
    + apply Z.ltb_ge in Hlt. constructor; [by constructor|].
      constructor; [done|]. eapply Forall_impl; [exact Hx|].
      simpl. intros. lia.
Qed.

Lemma getAllProjects_sorted (stored : list TranslationProject) :
  StronglySorted (λ a b, (createdAt b ≤ createdAt a)%Z) (getAllProjects stored).
Proof.
  induction stored as [|p l IH]; simpl; [constructor|].
  by apply insertProject_sorted.
Qed.

Lemma getAllProjects_perm (stored : list TranslationProject) :
  getAllProjects stored ≡ₚ stored.
Proof.
  induction stored as [|p l IH]; simpl; [done|].
  rewrite <- IH at 2. generalize (getAllProjects l). clear.
  intros s. induction s as [|x s IH]; simpl; [done|].
  destruct (createdAt p <? createdAt x)%Z; [|done].
  rewrite IH. apply Permutation_swap.
Qed.

(** C8 (amended). For every limit of at least 1: the projects are visited
    newest first; the result is the first [limit] entries of the
    concatenation, over the qualifying projects in that order, of the
    examples of their first 10 valid blocks, so it never has more than
    [limit] entries; and with limit 5 over three qualifying projects of 10
    valid blocks each, the result is the examples of the first 5 valid
    blocks of the newest project. *)
Theorem getTrainingExamples_limit (limit : Z) (stored : list TranslationProject) :
  (1 ≤ limit)%Z →
  let projects := getAllProjects stored in
  let qualifying := List.filter isTrainingProject projects in
  StronglySorted (λ a b, (createdAt b ≤ createdAt a)%Z) projects
  ∧ projects ≡ₚ stored
  ∧ getTrainingExamples limit stored
    = take (Z.to_nat limit) (concat (map projectExamples qualifying))
  ∧ (Z.of_nat (length (getTrainingExamples limit stored)) ≤ limit)%Z
  ∧ ∀ p1 p2 p3,
      qualifying = [p1; p2; p3] →
      length (List.filter validBlock (blocks p1)) = 10%nat →
      length (List.filter validBlock (blocks p2)) = 10%nat →
      length (List.filter validBlock (blocks p3)) = 10%nat →
      getTrainingExamples 5 stored
      = map trainingExample (take 5 (List.filter validBlock (blocks p1))).
Proof.
  intros Hlimit projects qualifying.
  assert (Hgen : ∀ l, (1 ≤ l)%Z →
            getTrainingExamples l stored
            = take (Z.to_nat l) (concat (map projectExamples qualifying))).
  { intros l Hl. unfold getTrainingExamples. fold projects. fold qualifying.
    rewrite (projectLoop_spec l Hl qualifying []); [done | simpl; lia]. }
  split; [apply getAllProjects_sorted|].
  split; [apply getAllProjects_perm|].
  split; [by apply Hgen|].
  split.
  - rewrite Hgen by done. rewrite length_take. lia.
  - intros p1 p2 p3 Hq H1 H2 H3. rewrite Hgen by lia. rewrite Hq.
    cbn [map concat]. rewrite take_app_le.
    + unfold projectExamples. rewrite <- (fmap_take trainingExample). simpl.
      f_equal. by rewrite take_take.
    + unfold projectExamples. rewrite length_map, length_take. lia.
Qed.

Lemma getTrainingExamples_limit_witness :
  (1 ≤ 5)%Z
  ∧ getTrainingExamples 5 sampleStore
    = map trainingExample (map (storedBlock "c") (seq 1 5)).
Proof.
  split; [lia|].
  destruct (getTrainingExamples_limit 5 sampleStore ltac:(lia))
    as (_ & _ & _ & _ & Hscenario).
  apply (Hscenario (storedProject "c" 300) (storedProject "b" 200)
                   (storedProject "a" 100)); reflexivity.
Defined.

(** C8, as stated, fails at limit 0: the limit is tested only after an
    example has been appended, so one example is returned. *)
Lemma getTrainingExamples_limit_zero :
  length (getTrainingExamples 0 sampleStore) = 1%nat
  ∧ ¬ (Z.of_nat (length (getTrainingExamples 0 sampleStore)) ≤ 0)%Z.
Proof.
  assert (H : length (getTrainingExamples 0 sampleStore) = 1%nat) by reflexivity.
  split; [done | rewrite H; lia].
Qed.

(** ** alignSrts *)

Section Aligner.

Lemma translatedMapOf_snoc (l : list SrtBlock) (b : SrtBlock) :
  translatedMapOf (l ++ [b]) = <[id b := b]> (translatedMapOf l).
Proof. unfold translatedMapOf. by rewrite fold_left_app. Qed.

Lemma translatedMapOf_lookup_Some (l : list SrtBlock) (k : Z) (b : SrtBlock) :
  translatedMapOf l !! k = Some b → b ∈ l ∧ id b = k.
Proof.
  induction l as [|x l IH] using rev_ind.
  - unfold translatedMapOf. simpl. by rewrite lookup_empty.
  - rewrite translatedMapOf_snoc. destruct (decide (id x = k)) as [<- | Hne].
    + rewrite lookup_insert_eq. intros [= <-]. split; [|done].
      apply elem_of_app. right. apply list_elem_of_here.
    + rewrite lookup_insert_ne by done. intros H.
      destruct (IH H) as [Hin Hid]. split; [|done].
      apply elem_of_app. by left.
Qed.

Lemma translatedMapOf_lookup_is_Some (l : list SrtBlock) (b : SrtBlock) :
  b ∈ l → is_Some (translatedMapOf l !! id b).
Proof.
  induction l as [|x l IH] using rev_ind; [by rewrite elem_of_nil|].
  rewrite translatedMapOf_snoc, elem_of_app, list_elem_of_singleton.
  intros Hin. destruct (decide (id x = id b)) as [Heq | Hne].
  - rewrite Heq, lookup_insert_eq. by eexists.
  - rewrite lookup_insert_ne by done. destruct Hin as [Hin | ->]; [auto | done].
Qed.

Lemma translatedMapOf_last (l1 l2 : list SrtBlock) (b : SrtBlock) :
  (∀ t, t ∈ l2 → id t ≠ id b) →
  translatedMapOf (l1 ++ b :: l2) !! id b = Some b.
Proof.
  induction l2 as [|x l2 IH] using rev_ind; intros Hlater.
  - rewrite translatedMapOf_snoc. apply lookup_insert_eq.
  - rewrite app_comm_cons, app_assoc, translatedMapOf_snoc.
    rewrite lookup_insert_ne.
    + apply IH. intros t Ht. apply Hlater, elem_of_app. by left.
    + apply Hlater, elem_of_app. right. apply list_elem_of_here.
Qed.

Lemma alignFrom_app (tm : gmap Z SrtBlock) (tbs l1 l2 : list SrtBlock) :
  ∀ i, alignFrom tm tbs i (l1 ++ l2)
       = alignFrom tm tbs i l1 ++ alignFrom tm tbs (i + length l1) l2.
Proof.
  induction l1 as [|a l1 IH]; intros i; simpl.
  - by rewrite Nat.add_0_r.
  - rewrite IH. replace (S i + length l1)%nat with (i + S (length l1))%nat by lia.
    by destruct (findTrans tm tbs a i).
Qed.

Lemma alignFrom_length (tm : gmap Z SrtBlock) (tbs l : list SrtBlock) :
  ∀ i, (length (alignFrom tm tbs i l) ≤ length l)%nat.
Proof.
  induction l as [|a l IH]; intros i; simpl; [lia|].
  specialize (IH (S i)). destruct (findTrans tm tbs a i); simpl; lia.
Qed.

Lemma alignFrom_all_matched (tm : gmap Z SrtBlock) (tbs origs : list SrtBlock) :
  (∀ a, a ∈ origs → is_Some (tm !! id a)) →
  ∀ i, ∃ matched,
    Forall2 (λ a b, tm !! id a = Some b) origs matched
    ∧ alignFrom tm tbs i origs
      = zip_with (λ a b, withTranslation a (originalText b)) origs matched.
Proof.
  induction origs as [|a origs IH]; intros Hall i.
  - exists []. by split; [constructor|].
  - destruct (Hall a) as [b Hb]; [apply list_elem_of_here|].
    destruct (IH (λ x Hx, Hall x (list_elem_of_further _ _ _ Hx)) (S i))
      as (matched & HF & Heq).
    exists (b :: matched). split; [by constructor|].
    simpl. unfold findTrans. by rewrite Hb, Heq.
Qed.

(** The value of [trans] at the last conditional: the id lookup where it
    succeeds; otherwise the block at the same index, where there is one
    and its start time is the original's. *)
Lemma findTrans_spec (tm : gmap Z SrtBlock) (tbs : list SrtBlock)
    (orig : SrtBlock) (index : nat) (trans : SrtBlock) :
  findTrans tm tbs orig index = Some trans
  ↔ tm !! id orig = Some trans
    ∨ (tm !! id orig = None ∧ (index < length tbs)%nat
       ∧ tbs !! index = Some trans ∧ startTime trans = startTime orig).
Proof.
  unfold findTrans. destruct (tm !! id orig) as [t|] eqn:Hlook.
  - split; [by left|]. by intros [H | [H _]].
  - destruct (index <? length tbs)%nat eqn:Hlt.
    + apply Nat.ltb_lt in Hlt. destruct (tbs !! index) as [c|] eqn:Hc.
      * case_bool_decide as Heq.
        -- split; [intros [= <-]; by right | by intros [H | (_ & _ & [= <-] & _)]].
        -- split; [done|]. intros [H | (_ & _ & [= <-] & H)]; done.
      * split; [done|]. by intros [H | (_ & _ & H & _)].
    + apply Nat.ltb_ge in Hlt. split; [done|].
      intros [H | (_ & H & _)]; [done | lia].
Qed.

End Aligner.

(** C2. When every block parsed from A has a block parsed from B with the
    same id, [alignSrts] returns one pair per block of A, in A's order,
    each with the id, times, original text and reference mark of the A
    block and, as [translatedText], the text of the B block the id lookup
    matches it with.  The ids are safe integers. *)
Theorem alignSrts_same_ids (A B : list N) :
  safeIds A → safeIds B →
  (∀ a, a ∈ parseSRT A → ∃ b, b ∈ parseSRT B ∧ id b = id a) →
  ∃ matched : list SrtBlock,
    Forall2 (λ a b, b ∈ parseSRT B ∧ id b = id a
                    ∧ translatedMapOf (parseSRT B) !! id a = Some b)
            (parseSRT A) matched
    ∧ alignSrts A B
      = zip_with (λ a b, {| id := id a;
                            startTime := startTime a;
                            endTime := endTime a;
                            originalText := originalText a;
                            translatedText := Some (originalText b);
                            isFromReference := isFromReference a |})
                 (parseSRT A) matched
    ∧ length (alignSrts A B) = length (parseSRT A).
Proof.
  intros _ _ Hall. unfold alignSrts.
  destruct (alignFrom_all_matched (translatedMapOf (parseSRT B)) (parseSRT B)
              (parseSRT A)) with (i := 0%nat) as (matched & HF & Heq).
  { intros a Ha. destruct (Hall a Ha) as (b & Hb & <-).
    by apply translatedMapOf_lookup_is_Some. }
  exists matched. split; [|split; [exact Heq|]].
  - eapply Forall2_impl; [exact HF|]. simpl. intros a b Hab.
    destruct (translatedMapOf_lookup_Some _ _ _ Hab). done.
  - rewrite Heq, length_zip_with. apply Forall2_length in HF. lia.
Qed.

Lemma alignSrts_same_ids_witness :
  safeIds sample1 ∧ safeIds sample2
  ∧ (∀ a, a ∈ parseSRT sample1 → ∃ b, b ∈ parseSRT sample2 ∧ id b = id a)
  ∧ length (alignSrts sample1 sample2) = length (parseSRT sample1).
Proof.
  assert (S1 : safeIds sample1)
    by (unfold safeIds; refine (bool_decide_unpack _ _); vm_compute; exact I).
  assert (S2 : safeIds sample2)
    by (unfold safeIds; refine (bool_decide_unpack _ _); vm_compute; exact I).
  assert (H : ∀ a, a ∈ parseSRT sample1 → ∃ b, b ∈ parseSRT sample2 ∧ id b = id a).
  { assert (HF : Forall (λ a, Exists (λ b, id b = id a) (parseSRT sample2))
                        (parseSRT sample1))
      by (refine (bool_decide_unpack _ _); vm_compute; exact I).
    intros a Ha. apply (proj1 (Forall_forall _ _) HF) in Ha.
    apply Exists_exists in Ha. exact Ha. }
  split; [exact S1|]. split; [exact S2|]. split; [exact H|].
  destruct (alignSrts_same_ids sample1 sample2 S1 S2 H) as (matched & _ & _ & Hlen).
  exact Hlen.
Defined.

(** C10. When [b] is the last block of the translated track with its id,
    an original block with that id is paired with [b]: the pairs are
    those of the originals before it, then the original with the text of
    [b] as [translatedText], then those of the originals after it.  The
    ids are safe integers. *)
Theorem alignSrts_duplicate_ids_last (A B : list N)
    (o1 o2 t1 t2 : list SrtBlock) (orig b : SrtBlock) :
  safeIds A → safeIds B →
  parseSRT A = o1 ++ orig :: o2 →
  parseSRT B = t1 ++ b :: t2 →
  id b = id orig →
  (∀ t, t ∈ t2 → id t ≠ id b) →
  translatedMapOf (parseSRT B) !! id orig = Some b
  ∧ alignSrts A B
    = alignFrom (translatedMapOf (parseSRT B)) (parseSRT B) 0 o1
      ++ {| id := id orig;
            startTime := startTime orig;
            endTime := endTime orig;
            originalText := originalText orig;
            translatedText := Some (originalText b);
            isFromReference := isFromReference orig |}
      :: alignFrom (translatedMapOf (parseSRT B)) (parseSRT B) (S (length o1)) o2.
Proof.
  intros _ _ HA HB Hid Hlast.
  assert (Hlook : translatedMapOf (parseSRT B) !! id orig = Some b).
  { rewrite HB, <- Hid. by apply translatedMapOf_last. }
  split; [done|]. unfold alignSrts. rewrite HA, alignFrom_app.
  cbn [alignFrom]. replace (findTrans _ _ orig _) with (Some b); [done|].
  unfold findTrans. by rewrite Hlook.
Qed.

Lemma alignSrts_duplicate_ids_last_witness :
  safeIds sample1 ∧ safeIds sample2
  ∧ parseSRT sample1 = [a1] ++ a2 :: []
  ∧ parseSRT sample2 = [b1; b2] ++ b3 :: []
  ∧ id b3 = id a2
  ∧ alignSrts sample1 sample2
    = alignFrom (translatedMapOf (parseSRT sample2)) (parseSRT sample2) 0 [a1]
      ++ {| id := 2;
            startTime := lit "00:00:03,000";
            endTime := lit "00:00:04,000";
            originalText := lit "Goodbye";
            translatedText := Some (lit "Bye bye");
            isFromReference := None |}
      :: alignFrom (translatedMapOf (parseSRT sample2)) (parseSRT sample2) 2 [].
Proof.
  assert (S1 : safeIds sample1)
    by (unfold safeIds; refine (bool_decide_unpack _ _); vm_compute; exact I).
  assert (S2 : safeIds sample2)
    by (unfold safeIds; refine (bool_decide_unpack _ _); vm_compute; exact I).
  assert (HA : parseSRT sample1 = [a1] ++ a2 :: []) by (vm_compute; reflexivity).
  assert (HB : parseSRT sample2 = [b1; b2] ++ b3 :: []) by (vm_compute; reflexivity).
  split; [exact S1|]. split; [exact S2|].
  split; [exact HA|]. split; [exact HB|]. split; [reflexivity|].
  refine (proj2 (alignSrts_duplicate_ids_last sample1 sample2 [a1] [] [b1; b2] []
                   a2 b3 S1 S2 HA HB eq_refl _)).
  intros t Ht. by apply elem_of_nil in Ht.
Defined.

Section Shifted.

Lemma list_Z_min (l : list Z) :
  l ≠ [] → ∃ x, x ∈ l ∧ ∀ y, y ∈ l → (x ≤ y)%Z.
Proof.
  induction l as [|a l IH]; [done|]. intros _.
  destruct l as [|b l].
  - exists a. split; [apply list_elem_of_here|].
    intros y Hy. apply list_elem_of_singleton in Hy. lia.
  - destruct IH as (m & Hm & Hmin); [done|].
    destruct (decide (a ≤ m)%Z) as [Hle | Hgt].
    + exists a. split; [apply list_elem_of_here|].
      intros y Hy. apply elem_of_cons in Hy as [-> | Hy]; [lia|].
      specialize (Hmin y Hy). lia.
    + exists m. split; [by apply list_elem_of_further|].
      intros y Hy. apply elem_of_cons in Hy as [-> | Hy]; [lia | auto].
Qed.

Lemma list_Z_max (l : list Z) :
  l ≠ [] → ∃ x, x ∈ l ∧ ∀ y, y ∈ l → (y ≤ x)%Z.
Proof.
  intros Hl. destruct (list_Z_min (map Z.opp l)) as (m & Hm & Hmin).
  { by destruct l. }
  apply list_elem_of_fmap in Hm as (x & -> & Hx).
  exists x. split; [done|]. intros y Hy.
  assert (Hy' : (- y)%Z ∈ map Z.opp l).
  { apply list_elem_of_fmap. by exists y. }
  specialize (Hmin _ Hy'). lia.
Qed.

(** A non-empty list of integers has an element that is not in the list
    shifted by a non-zero constant. *)
Lemma shifted_misses (l : list Z) (k : Z) :
  l ≠ [] → k ≠ 0%Z → ∃ x, x ∈ l ∧ ∀ y, y ∈ l → x ≠ (y + k)%Z.
Proof.
  intros Hl Hk. destruct (decide (0 < k)%Z).
  - destruct (list_Z_min l Hl) as (x & Hx & Hmin). exists x. split; [done|].
    intros y Hy. specialize (Hmin y Hy). lia.
  - destruct (list_Z_max l Hl) as (x & Hx & Hmax). exists x. split; [done|].
    intros y Hy. specialize (Hmax y Hy). lia.
Qed.

Lemma alignFrom_unmatched (tm : gmap Z SrtBlock) (tbs l1 l2 : list SrtBlock)
    (a : SrtBlock) :
  findTrans tm tbs a (length l1) = None →
  (length (alignFrom tm tbs 0 (l1 ++ a :: l2)) < length (l1 ++ a :: l2))%nat.
Proof.
  intros Hnone. rewrite alignFrom_app. cbn [alignFrom]. simpl.
  rewrite Hnone, !length_app. simpl.
  pose proof (alignFrom_length tm tbs l1 0).
  pose proof (alignFrom_length tm tbs l2 (S (length l1))). lia.
Qed.

End Shifted.

(** C3 (amended). When A has at least one block, the ids, all safe
    integers, of B are those of A shifted by a non-zero constant and at
    every position the start times differ, [alignSrts] returns strictly
    fewer pairs than A has blocks.  A block is matched by position only
    when the id lookup fails, the index is in bounds and the candidate
    has the original's start time. *)
Theorem alignSrts_shifted_ids (A B : list N) (k : Z) :
  safeIds A → safeIds B →
  parseSRT A ≠ [] →
  k ≠ 0%Z →
  Forall2 (λ a b, id b = (id a + k)%Z ∧ startTime b ≠ startTime a)
          (parseSRT A) (parseSRT B) →
  (length (alignSrts A B) < length (parseSRT A))%nat
  ∧ ∀ orig index trans,
      findTrans (translatedMapOf (parseSRT B)) (parseSRT B) orig index = Some trans
      ↔ translatedMapOf (parseSRT B) !! id orig = Some trans
        ∨ (translatedMapOf (parseSRT B) !! id orig = None
           ∧ (index < length (parseSRT B))%nat
           ∧ parseSRT B !! index = Some trans
           ∧ startTime trans = startTime orig).
Proof.
  intros _ _ Hne Hk HF. split; [|intros; apply findTrans_spec].
  unfold alignSrts. set (origs := parseSRT A) in *. set (tbs := parseSRT B) in *.
  destruct (shifted_misses (map id origs) k) as (x & Hx & Hmiss); [by destruct origs | done |].
  apply list_elem_of_fmap in Hx as (a & -> & Ha).
  apply list_elem_of_split in Ha as (l1 & l2 & Hsplit).
  rewrite Hsplit. apply alignFrom_unmatched.
  assert (Hla : origs !! length l1 = Some a).
  { rewrite Hsplit. by rewrite list_lookup_middle. }
  destruct (Forall2_lookup_l _ _ _ _ _ HF Hla) as (c & Hc & _ & Hstart).
  unfold findTrans.
  destruct (translatedMapOf tbs !! id a) as [b|] eqn:Hlook.
  - exfalso. apply translatedMapOf_lookup_Some in Hlook as [Hb Hid].
    apply list_elem_of_lookup in Hb as [j Hj].
    destruct (Forall2_lookup_r _ _ _ _ _ HF Hj) as (a' & Ha' & Hshift & _).
    apply (Hmiss (id a')); [|lia].
    apply list_elem_of_fmap. exists a'. split; [done|].
    apply list_elem_of_lookup. by exists j.
  - rewrite Hc. apply lookup_lt_Some in Hc. apply Nat.ltb_lt in Hc. rewrite Hc.
    by rewrite bool_decide_eq_false_2.
Qed.

Lemma alignSrts_shifted_ids_witness :
  safeIds sample1 ∧ safeIds sample3
  ∧ parseSRT sample1 ≠ []
  ∧ Forall2 (λ a b, id b = (id a + 2)%Z ∧ startTime b ≠ startTime a)
            (parseSRT sample1) (parseSRT sample3)
  ∧ (length (alignSrts sample1 sample3) < length (parseSRT sample1))%nat.
Proof.
  assert (S1 : safeIds sample1)
    by (unfold safeIds; refine (bool_decide_unpack _ _); vm_compute; exact I).
  assert (S3 : safeIds sample3)
    by (unfold safeIds; refine (bool_decide_unpack _ _); vm_compute; exact I).
  assert (H1 : parseSRT sample1 ≠ []) by (vm_compute; discriminate).
  assert (H2 : Forall2 (λ a b, id b = (id a + 2)%Z ∧ startTime b ≠ startTime a)
                       (parseSRT sample1) (parseSRT sample3))
    by (refine (bool_decide_unpack _ _); vm_compute; exact I).
  split; [exact S1|]. split; [exact S3|]. split; [exact H1|]. split; [exact H2|].
  refine (proj1 (alignSrts_shifted_ids sample1 sample3 2 S1 S3 H1 _ H2)). discriminate.
Defined.

(** C3, as stated, fails for tracks without blocks: nothing is fewer than
    the zero blocks of A. *)
Lemma alignSrts_shifted_ids_empty :
  safeIds [] ∧ parseSRT [] = []
  ∧ Forall2 (λ a b, id b = (id a + 2)%Z ∧ startTime b ≠ startTime a)
            (parseSRT []) (parseSRT [])
  ∧ ¬ (length (alignSrts [] []) < length (parseSRT []))%nat.
Proof.
  split; [constructor|]. split; [reflexivity|].
  split; [constructor|]. vm_compute. lia.
Qed.

(** ** Strings: trim, split and join *)

Section Strings.

Lemma trimStart_head (s : list N) :
  trimStart s = [] ∨ ∃ c r, trimStart s = c :: r ∧ isWhiteSpace c = false.
Proof.
  induction s as [|c r IH]; simpl; [by left|].
  destruct (isWhiteSpace c) eqn:Hc; [done|]. right. by exists c, r.
Qed.

Lemma trimStart_id (c : N) (r : list N) :
  isWhiteSpace c = false → trimStart (c :: r) = c :: r.
Proof. intros Hc. simpl. by rewrite Hc. Qed.

Lemma trimStart_snoc (s : list N) (d : N) :
  isWhiteSpace d = false → ∃ pre, trimStart (s ++ [d]) = pre ++ [d].
Proof.
  intros Hd. induction s as [|c r IH]; simpl.
  - rewrite Hd. by exists [].
  - destruct (isWhiteSpace c); [done|]. by exists (c :: r).
Qed.

Lemma trimEnd_snoc (s : list N) (d : N) :
  isWhiteSpace d = false → trimEnd (s ++ [d]) = s ++ [d].
Proof.
  intros Hd. unfold trimEnd. rewrite rev_app_distr. simpl.
  rewrite Hd. simpl. by rewrite rev_involutive.
Qed.

Lemma trimEnd_last (s : list N) :
  trimEnd s = [] ∨ ∃ r d, trimEnd s = r ++ [d] ∧ isWhiteSpace d = false.
Proof.
  unfold trimEnd. destruct (trimStart_head (rev s)) as [-> | (c & r & -> & Hc)].
  - by left.
  - right. exists (rev r), c. by split.
Qed.

Lemma trim_last (s : list N) :
  trim s = [] ∨ ∃ r d, trim s = r ++ [d] ∧ isWhiteSpace d = false.
Proof. apply trimEnd_last. Qed.

(** A string that neither starts nor ends with white space is its own trim. *)
Lemma trim_id (c d : N) (s r : list N) :
  isWhiteSpace c = false → isWhiteSpace d = false →
  s = c :: r → (∃ pre, s = pre ++ [d]) → trim s = s.
Proof.
  intros Hc Hd -> [pre Hpre]. unfold trim. rewrite trimStart_id by done.
  rewrite Hpre. by apply trimEnd_snoc.
Qed.

Lemma trim_snoc_nonempty (s : list N) (d : N) :
  isWhiteSpace d = false → trim (s ++ [d]) ≠ [].
Proof.
  intros Hd. unfold trim. destruct (trimStart_snoc s d Hd) as [pre ->].
  rewrite trimEnd_snoc by done. by destruct pre.
Qed.

Lemma trim_nil : trim [] = [].
Proof. reflexivity. Qed.

Lemma splitFrom_nonempty (sep : list N) (s : list N) :
  ∀ k, splitFrom sep k s ≠ [].
Proof.
  induction s as [|c r IH]; intros k; simpl; [done|].
  destruct k; [|apply IH]. destruct (startsWith sep (c :: r)); [done|].
  specialize (IH 0%nat). by destruct (splitFrom sep 0 r).
Qed.

Lemma split1_cons (c x : N) (r : list N) :
  split [c] (x :: r)
  = if c =? x then [] :: split [c] r else consHead x (split [c] r).
Proof.
  unfold split. cbn [splitFrom startsWith length Nat.sub].
  destruct (c =? x); [|done]. by destruct r.
Qed.

Lemma join_consHead (sep : list N) (c : N) (ps : list (list N)) :
  ps ≠ [] → join sep (consHead c ps) = c :: join sep ps.
Proof. destruct ps as [|p [|q ps]]; done. Qed.

Lemma join_cons_nonempty (sep x : list N) (ps : list (list N)) :
  ps ≠ [] → join sep (x :: ps) = x ++ sep ++ join sep ps.
Proof. by destruct ps. Qed.

Lemma join_split1 (c : N) (s : list N) : join [c] (split [c] s) = s.
Proof.
  induction s as [|x r IH]; [done|]. rewrite split1_cons.
  destruct (c =? x) eqn:Hc.
  - apply N.eqb_eq in Hc as ->.
    rewrite join_cons_nonempty by apply splitFrom_nonempty.
    by rewrite IH.
  - rewrite join_consHead by apply splitFrom_nonempty. by rewrite IH.
Qed.

(** The last line of a string that ends in a code unit other than the
    separator ends in that code unit. *)
Lemma split1_snoc (c d : N) (s : list N) :
  c ≠ d → ∃ ls l, split [c] (s ++ [d]) = ls ++ [l ++ [d]].
Proof.
  intros Hcd. induction s as [|x r (ls & l & IH)].
  - exists [], []. simpl. rewrite split1_cons.
    by rewrite (proj2 (N.eqb_neq c d)).
  - simpl. rewrite split1_cons, IH. destruct (c =? x).
    + by exists ([] :: ls), l.
    + destruct ls as [|y ls]; simpl.
      * by exists [], (x :: l).
      * by exists ((x :: y) :: ls), l.
Qed.

Lemma join_snoc_last (sep y : list N) (xs : list (list N)) :
  ∃ pre, join sep (xs ++ [y]) = pre ++ y.
Proof.
  induction xs as [|x xs (pre & IH)]; simpl.
  - by exists [].
  - rewrite IH. destruct (xs ++ [y]) eqn:E; [by destruct xs|].
    exists (x ++ sep ++ pre). by rewrite <- !app_assoc.
Qed.

End Strings.

(** ** parseSRT *)

Section Parse.

(** The text of a parsed block ends in a code unit that is not white
    space. *)
Lemma parseBlock_text_last (block : list N) (b : SrtBlock) :
  parseBlock block = Some b →
  ∃ pre d, originalText b = pre ++ [d] ∧ isWhiteSpace d = false.
Proof.
  unfold parseBlock.
  destruct (length (split [LF] (trim block)) <? 3)%nat eqn:Hlen; [done|].
  apply Nat.ltb_ge in Hlen.
  destruct (parseInt _); [|done]. destruct (negb _); [done|].
  intros [= <-]. cbn [originalText].
  destruct (trim_last block) as [Hnil | (r & d & Ht & Hd)].
  { rewrite Hnil in Hlen. simpl in Hlen. lia. }
  rewrite Ht in *.
  destruct (split1_snoc LF d r) as (ls & l & Hsplit).
  { intros <-. done. }
  rewrite Hsplit in *. rewrite length_app in Hlen. simpl in Hlen.
  rewrite drop_app_le by lia.
  destruct (join_snoc_last [LF] (l ++ [d]) (drop 2 ls)) as [pre ->].
  exists (pre ++ l), d. by rewrite <- app_assoc.
Qed.

Lemma parseSRT_elem (content : list N) (b : SrtBlock) :
  b ∈ parseSRT content →
  ∃ block, block ∈ splitBlank (normalize content) ∧ parseBlock block = Some b.
Proof. unfold parseSRT. by rewrite list_elem_of_omap. Qed.

Lemma parseSRT_trim_text_nonempty (content : list N) (b : SrtBlock) :
  b ∈ parseSRT content → trim (originalText b) ≠ [].
Proof.
  intros (block & _ & Hb)%parseSRT_elem.
  destruct (parseBlock_text_last _ _ Hb) as (pre & d & -> & Hd).
  by apply trim_snoc_nonempty.
Qed.

End Parse.

(** C9. Every block [parseSRT] returns has non-empty [originalText];
    empty content gives no block, and so does content all of whose
    candidate blocks are discarded. *)
Theorem parseSRT_text_nonempty (content : list N) :
  (∀ b, b ∈ parseSRT content → originalText b ≠ [])
  ∧ parseSRT [] = []
  ∧ (Forall (λ block, parseBlock block = None) (splitBlank (normalize content)) →
     parseSRT content = []).
Proof.
  split; [|split; [reflexivity|]].
  - intros b (block & _ & Hb)%parseSRT_elem.
    destruct (parseBlock_text_last _ _ Hb) as (pre & d & -> & _).
    by destruct pre.
  - unfold parseSRT. induction 1 as [|block l Hb _ IH]; [done|].
    simpl. by rewrite Hb.
Qed.

(** What [parseInt] makes of a line: NaN when the line has no leading
    digits, the integer they write otherwise. *)
Lemma parseInt_leadingDigits (s : list N) :
  parseInt s = match leadingDigits s with
               | [] => None
               | _ :: _ => Some (readInteger s)
               end.
Proof.
  unfold parseInt, readInteger, leadingDigits, afterSign, signOf.
  destruct (trimStart s) as [|c r]; [done|].
  destruct (c =? 45); cbn [orb]; [by destruct (takeDigits r)|].
  destruct (c =? 43); [by destruct (takeDigits r)|].
  by destruct (takeDigits (c :: r)).
Qed.

Lemma takeDigits_app (ds rest : list N) :
  forallb isDigit ds = true → takeDigits (ds ++ rest) = ds ++ takeDigits rest.
Proof.
  induction ds as [|d ds IH]; [done|]. cbn [forallb app takeDigits].
  intros [-> Hds]%andb_true_iff. by rewrite IH.
Qed.

(** Digits followed by something that is not a digit are read as the
    integer the digits write. *)
Lemma leadingDigits_prefix (ds rest : list N) :
  ds ≠ [] → forallb isDigit ds = true → takeDigits rest = [] →
  leadingDigits (ds ++ rest) = ds ∧ readInteger (ds ++ rest) = digitsValue ds.
Proof.
  intros Hne Hds Hrest. destruct ds as [|d ds]; [done|].
  assert (Hd : isDigit d = true).
  { cbn [forallb] in Hds. by apply andb_true_iff in Hds as [? _]. }
  assert (Hvis : isWhiteSpace d = false ∧ (d =? 45) = false ∧ (d =? 43) = false).
  { clear -Hd. unfold isDigit, isWhiteSpace in *. lia. }
  destruct Hvis as (Hws & H45 & H43).
  assert (Hlead : leadingDigits ((d :: ds) ++ rest) = d :: ds).
  { unfold leadingDigits. cbn [app]. rewrite trimStart_id by done.
    unfold afterSign. rewrite H45, H43. cbn [orb].
    change (d :: ds ++ rest) with ((d :: ds) ++ rest).
    by rewrite takeDigits_app, Hrest, app_nil_r. }
  split; [done|]. unfold readInteger. rewrite Hlead. cbn [app].
  rewrite trimStart_id by done. unfold signOf. rewrite H45. lia.
Qed.

(** C6 (amended). A candidate block whose first line [parseInt] reads as
    NaN, which is a line that after leading white space and an optional
    sign does not begin with a decimal digit, is discarded: the result is
    what the candidates before it and after it give.  A first line that
    does begin with digits there is read as the integer they write,
    whatever follows them, and the block is kept when it has three lines
    or more and an arrow in the second. *)
Theorem parseSRT_first_line (content : list N) (before after : list (list N))
    (block : list N) :
  splitBlank (normalize content) = before ++ block :: after →
  let lines := split [LF] (trim block) in
  let first := nth 0 lines [] in
  (parseInt first = None ↔ leadingDigits first = [])
  ∧ (leadingDigits first = [] →
     parseBlock block = None
     ∧ parseSRT content = omap parseBlock before ++ omap parseBlock after)
  ∧ (leadingDigits first ≠ [] → (3 ≤ length lines)%nat →
     includes ARROW (nth 1 lines []) = true →
     ∃ b, parseBlock block = Some b
          ∧ (safeInteger (readInteger first) = true → id b = readInteger first)
          ∧ originalText b = join [LF] (drop 2 lines)
          ∧ parseSRT content
            = omap parseBlock before ++ b :: omap parseBlock after)
  ∧ (∀ ds rest, ds ≠ [] → forallb isDigit ds = true → takeDigits rest = [] →
     leadingDigits (ds ++ rest) = ds
     ∧ readInteger (ds ++ rest) = digitsValue ds
     ∧ parseInt (ds ++ rest) ≠ None
     ∧ (safeInteger (digitsValue ds) = true →
        parseInt (ds ++ rest) = Some (digitsValue ds))).
Proof.
  intros Hsplit lines first.
  pose proof (parseInt_leadingDigits first) as Hp.
  split; [|split; [|split]].
  - rewrite Hp. by destruct (leadingDigits first).
  - intros Hnil.
    assert (Hb : parseBlock block = None).
    { unfold parseBlock. fold lines. fold first. rewrite Hp, Hnil.
      by destruct (_ <? _)%nat. }
    split; [done|]. unfold parseSRT. rewrite Hsplit, omap_app. simpl.
    by rewrite Hb.
  - intros Hne Hlen Harrow.
    assert (Hb : parseBlock block
                 = Some {| id := readInteger first;
                           startTime := nth 0 (map trim (split ARROW (nth 1 lines []))) [];
                           endTime := nth 1 (map trim (split ARROW (nth 1 lines []))) [];
                           originalText := join [LF] (drop 2 lines);
                           translatedText := None;
                           isFromReference := None |}).
    { unfold parseBlock. fold lines. fold first. rewrite Hp, Harrow.
      replace (length lines <? 3)%nat with false
        by (symmetry; apply Nat.ltb_ge; lia).
      by destruct (leadingDigits first). }
    eexists. split; [exact Hb|]. split; [done|]. split; [done|].
    unfold parseSRT. rewrite Hsplit, omap_app. simpl. by rewrite Hb.
  - intros ds rest Hne Hds Hrest.
    destruct (leadingDigits_prefix ds rest Hne Hds Hrest) as [Hlead Hread].
    split; [done|]. split; [done|].
    rewrite parseInt_leadingDigits, Hlead, Hread. by destruct ds.
Qed.

Lemma parseSRT_first_line_witness :
  splitBlank (normalize (badCue ++ [LF; LF] ++ mixedCue ++ [LF; LF] ++ sample1))
  = [badCue] ++ mixedCue :: splitBlank sample1
  ∧ parseInt (lit "12abc") = Some (digitsValue (lit "12"))
  ∧ ∃ b, parseBlock mixedCue = Some b ∧ id b = 12%Z
         ∧ parseSRT (badCue ++ [LF; LF] ++ mixedCue ++ [LF; LF] ++ sample1)
           = omap parseBlock [badCue] ++ b :: omap parseBlock (splitBlank sample1).
Proof.
  assert (H1 : splitBlank (normalize (badCue ++ [LF; LF] ++ mixedCue
                                      ++ [LF; LF] ++ sample1))
               = [badCue] ++ mixedCue :: splitBlank sample1)
    by (vm_compute; reflexivity).
  split; [exact H1|].
  destruct (parseSRT_first_line _ _ _ _ H1) as (_ & _ & Hkept & Hdigits).
  split.
  - apply (Hdigits (lit "12") (lit "abc")); [discriminate | reflexivity..].
  - destruct Hkept as (b & Hb & Hid & _ & Hparse).
    + vm_compute. discriminate.
    + vm_compute. lia.
    + vm_compute. reflexivity.
    + exists b. split; [exact Hb|]. split; [|exact Hparse].
      rewrite Hid; vm_compute; reflexivity.
Defined.

(** C6, as stated, fails for a first line such as 12abc: [parseInt] reads
    the leading digits, and the block is kept with id 12. *)
Lemma parseSRT_id_digits_then_letters :
  parseInt (lit "12abc") = Some 12%Z
  ∧ parseSRT (cue "12abc" "00:00:01,000" "00:00:02,000" "Hello")
    = [parsedCue 12 "00:00:01,000" "00:00:02,000" "Hello"].
Proof. split; vm_compute; reflexivity. Qed.

(** C5 (amended). [stringifySRT] writes each block as its id, its times
    around an arrow, and as text its [translatedText] when that is
    present and not the empty string, its [originalText] otherwise. *)
Theorem stringifySRT_text (blocks : list SrtBlock) :
  stringifySRT blocks
  = join [LF; LF]
      (map (λ b, numberToString (id b) ++ [LF] ++ startTime b ++ lit " --> "
                 ++ endTime b ++ [LF]
                 ++ match translatedText b with
                    | Some (c :: t) => c :: t
                    | Some [] | None => originalText b
                    end) blocks).
Proof.
  unfold stringifySRT. f_equal. apply map_ext. intros b.
  unfold blockToString, textContent. by destruct (translatedText b) as [[|c t]|].
Qed.

(** C5, as stated, fails for a block whose translation is the empty
    string: its original text is written. *)
Lemma stringifySRT_empty_translation :
  translatedText emptyTranslation = Some []
  ∧ stringifySRT [emptyTranslation] = cue "1" "00:00:01,000" "00:00:02,000" "Hello"
  ∧ stringifySRT [emptyTranslation] ≠ cue "1" "00:00:01,000" "00:00:02,000" "".
Proof.
  split; [reflexivity|]. split; [vm_compute; reflexivity | vm_compute; discriminate].
Qed.

(** ** createReferenceMap *)

Section ReferenceMap.

Variables originals translations : list SrtBlock.

Lemma referenceStep_other (m : gmap (list N) (list N)) (i : nat) (k : list N) :
  (∀ o, originals !! i = Some o → trim (originalText o) ≠ k) →
  referenceStep originals translations m i !! k = m !! k.
Proof.
  intros Hne. unfold referenceStep.
  destruct (originals !! i) as [o|]; [|done].
  destruct (translations !! i) as [t|]; [|done].
  destruct (_ && _); [|done]. rewrite lookup_insert_ne; [done|]. by apply Hne.
Qed.

Lemma referenceFold_other (l : list nat) (k : list N) :
  (∀ i o, i ∈ l → originals !! i = Some o → trim (originalText o) ≠ k) →
  ∀ m, fold_left (referenceStep originals translations) l m !! k = m !! k.
Proof.
  induction l as [|i l IH]; intros Hne m; [done|]. simpl.
  rewrite IH.
  - apply referenceStep_other. intros o. apply Hne, list_elem_of_here.
  - intros i' o Hi'. apply Hne. by apply list_elem_of_further.
Qed.

Lemma referenceStep_set (m : gmap (list N) (list N)) (i : nat) (o t : SrtBlock) :
  originals !! i = Some o → translations !! i = Some t →
  trim (originalText o) ≠ [] → trim (originalText t) ≠ [] →
  referenceStep originals translations m i !! trim (originalText o)
  = Some (trim (originalText t)).
Proof.
  intros Ho Ht Hk Hv. unfold referenceStep. rewrite Ho, Ht.
  destruct (trim (originalText o)); [done|].
  destruct (trim (originalText t)); [done|]. simpl.
  apply lookup_insert_eq.
Qed.

End ReferenceMap.

(** C7. When a trimmed original text stands at positions [i] and [j]
    after it, with different non-empty trimmed translations at these
    positions, and at no later position that is processed,
    [createReferenceMap] maps it to the translation at [j]. *)
Theorem createReferenceMap_last_wins (A B : list N) (i j : nat)
    (oi oj ti tj : SrtBlock) :
  parseSRT A !! i = Some oi → parseSRT A !! j = Some oj →
  parseSRT B !! i = Some ti → parseSRT B !! j = Some tj →
  (i < j)%nat →
  trim (originalText oi) = trim (originalText oj) →
  trim (originalText ti) ≠ [] → trim (originalText tj) ≠ [] →
  trim (originalText ti) ≠ trim (originalText tj) →
  (∀ j' o', (j < j')%nat → (j' < length (parseSRT B))%nat →
            parseSRT A !! j' = Some o' →
            trim (originalText o') ≠ trim (originalText oj)) →
  createReferenceMap A B !! trim (originalText oj) = Some (trim (originalText tj)).
Proof.
  intros Hoi Hoj Hti Htj Hij Hkey Hvi Hvj Hdiff Hlast.
  unfold createReferenceMap.
  set (count := Nat.min _ _).
  assert (Hj : (j < count)%nat).
  { apply lookup_lt_Some in Hoj, Htj. unfold count. lia. }
  replace count with (j + (1 + (count - j - 1)))%nat by lia.
  rewrite !seq_app, !fold_left_app. simpl seq at 2. cbn [fold_left].
  rewrite referenceFold_other.
  - apply referenceStep_set; try done.
    apply (parseSRT_trim_text_nonempty A). apply list_elem_of_lookup. by exists j.
  - intros j' o' Hj' Ho'. apply elem_of_seq in Hj'.
    apply (Hlast j'); [lia | unfold count in *; lia | done].
Qed.

Lemma createReferenceMap_last_wins_witness :
  parseSRT sample4 !! 0%nat
  = Some (parsedCue 1 "00:00:01,000" "00:00:02,000" "Intro song")
  ∧ parseSRT sample4 !! 1%nat
    = Some (parsedCue 2 "00:00:03,000" "00:00:04,000" "Intro song")
  ∧ parseSRT sample5 !! 0%nat
    = Some (parsedCue 1 "00:00:01,000" "00:00:02,000" "First rendering")
  ∧ parseSRT sample5 !! 1%nat
    = Some (parsedCue 2 "00:00:03,000" "00:00:04,000" "Second rendering")
  ∧ createReferenceMap sample4 sample5 !! trim (lit "Intro song")
    = Some (trim (lit "Second rendering")).
Proof.
  assert (H1 : parseSRT sample4 !! 0%nat
               = Some (parsedCue 1 "00:00:01,000" "00:00:02,000" "Intro song"))
    by (vm_compute; reflexivity).
  assert (H2 : parseSRT sample4 !! 1%nat
               = Some (parsedCue 2 "00:00:03,000" "00:00:04,000" "Intro song"))
    by (vm_compute; reflexivity).
  assert (H3 : parseSRT sample5 !! 0%nat
               = Some (parsedCue 1 "00:00:01,000" "00:00:02,000" "First rendering"))
    by (vm_compute; reflexivity).
  assert (H4 : parseSRT sample5 !! 1%nat
               = Some (parsedCue 2 "00:00:03,000" "00:00:04,000" "Second rendering"))
    by (vm_compute; reflexivity).
  assert (Hlen : length (parseSRT sample4) = 2%nat) by (vm_compute; reflexivity).
  split; [exact H1|]. split; [exact H2|]. split; [exact H3|]. split; [exact H4|].
  refine (createReferenceMap_last_wins sample4 sample5 0 1 _ _ _ _ H1 H2 H3 H4
            _ _ _ _ _ _).
  - lia.
  - reflexivity.
  - vm_compute; discriminate.
  - vm_compute; discriminate.
  - vm_compute; discriminate.
  - intros j' o' Hlt _ Hlook. apply lookup_lt_Some in Hlook.
    rewrite Hlen in Hlook. lia.
Defined.

(** ** Numbers and their digits *)

Section Numbers.

Lemma uintDigits_value (d : Decimal.uint) :
  ∀ a, fold_left (λ acc c, (10 * acc + Z.of_N (c - 48))%Z) (uintDigits d)
         (Z.of_N (Unsigned.of_lu a))
       = Z.of_N (Unsigned.of_lu (Decimal.revapp d a)).
Proof.
  induction d as [|d IH|d IH|d IH|d IH|d IH|d IH|d IH|d IH|d IH|d IH];
    intros a; cbn [uintDigits fold_left Decimal.revapp]; [done|..];
    rewrite <- IH; f_equal; cbn [Unsigned.of_lu]; lia.
Qed.

Lemma digitsValue_pos (p : positive) :
  digitsValue (uintDigits (Pos.to_uint p)) = Z.pos p.
Proof.
  unfold digitsValue. change 0%Z with (Z.of_N (Unsigned.of_lu Decimal.Nil)).
  rewrite uintDigits_value. fold (Decimal.rev (Pos.to_uint p)).
  by rewrite <- Unsigned.of_uint_alt, Unsigned.of_to.
Qed.

Lemma uintDigits_digits (d : Decimal.uint) : forallb isDigit (uintDigits d) = true.
Proof. induction d; simpl; auto. Qed.

Lemma uintDigits_nonempty (p : positive) : uintDigits (Pos.to_uint p) ≠ [].
Proof.
  pose proof (Unsigned.to_uint_nonnil p) as H.
  by destruct (Pos.to_uint p).
Qed.

Lemma takeDigits_all (ds : list N) :
  forallb isDigit ds = true → takeDigits ds = ds.
Proof.
  induction ds as [|c r IH]; simpl; [done|].
  intros [-> Hr]%andb_true_iff. by rewrite IH.
Qed.

Lemma isDigit_visible (c : N) :
  isDigit c = true → isWhiteSpace c = false ∧ c ≠ 45 ∧ c ≠ 43 ∧ c ≠ LF ∧ c ≠ CR.
Proof. unfold isDigit, isWhiteSpace, LF, CR. lia. Qed.

Lemma parseInt_digits (c : N) (r : list N) :
  forallb isDigit (c :: r) = true →
  parseInt (c :: r) = Some (digitsValue (c :: r)).
Proof.
  intros Hds. pose proof Hds as Hall. simpl in Hds.
  apply andb_true_iff in Hds as [Hc _].
  destruct (isDigit_visible c Hc) as (Hws & H45 & H43 & _).
  unfold parseInt. rewrite trimStart_id by done.
  apply N.eqb_neq in H45, H43. rewrite H45, H43.
  rewrite takeDigits_all by done. f_equal. lia.
Qed.

Lemma parseInt_numberToString (z : Z) : parseInt (numberToString z) = Some z.
Proof.
  destruct z as [|p|p]; [reflexivity|..]; unfold numberToString;
    pose proof (uintDigits_digits (Pos.to_uint p)) as Hds;
    pose proof (uintDigits_nonempty p) as Hne;
    pose proof (digitsValue_pos p) as Hval;
    destruct (uintDigits (Pos.to_uint p)) as [|c r]; try done.
  - rewrite parseInt_digits by done. by rewrite Hval.
  - unfold parseInt. cbn [trimStart]. change (isWhiteSpace 45) with false.
    cbv iota. change (45 =? 45) with true. cbv iota beta.
    rewrite takeDigits_all by done. rewrite Hval. done.
Qed.

End Numbers.

(** ** Strings: what the round trip needs *)

(** Goals about the first code units of strings. *)
Ltac code_units :=
  cbn [startsWith app andb] in *; unfold LF, CR, SP in *; lia.

Section RoundTripStrings.

Lemma noCU_app (c : N) (x y : list N) : noCU c (x ++ y) = noCU c x && noCU c y.
Proof. apply forallb_app. Qed.

Lemma noCU_cons (c a : N) (x : list N) :
  noCU c (a :: x) = true ↔ a ≠ c ∧ noCU c x = true.
Proof.
  unfold noCU. cbn [forallb]. rewrite andb_true_iff, negb_true_iff, N.eqb_neq.
  done.
Qed.

Lemma noCU_digits (c : N) (ds : list N) :
  isDigit c = false → forallb isDigit ds = true → noCU c ds = true.
Proof.
  intros Hc. induction ds as [|d r IH]; [done|]. cbn [forallb].
  intros [Hd Hr]%andb_true_iff. apply noCU_cons. split; [|auto].
  intros ->. congruence.
Qed.

Lemma replaceCRLF_id (s : list N) : noCU CR s = true → replaceCRLF s = s.
Proof.
  induction s as [|c r IH]; [done|].
  intros [Hc Hr]%noCU_cons. cbn [replaceCRLF]. destruct r as [|d r']; [done|].
  apply N.eqb_neq in Hc. rewrite Hc. cbn [andb]. by rewrite IH.
Qed.

Lemma replaceAll_id (c d : N) (s : list N) : noCU c s = true → replaceAll c d s = s.
Proof.
  induction s as [|x r IH]; [done|].
  intros [Hx Hr]%noCU_cons. unfold replaceAll in *. cbn [map].
  apply N.eqb_neq in Hx. by rewrite Hx, IH.
Qed.

Lemma normalize_id (s : list N) : noCU CR s = true → normalize s = s.
Proof.
  intros H. unfold normalize. rewrite replaceCRLF_id by done.
  by apply replaceAll_id.
Qed.

Lemma split1_app (c : N) (x y : list N) :
  noCU c x = true → split [c] (x ++ c :: y) = x :: split [c] y.
Proof.
  induction x as [|a x IH]; simpl.
  - intros _. by rewrite split1_cons, N.eqb_refl.
  - intros [Ha Hx]%noCU_cons. rewrite split1_cons, IH by done.
    apply not_eq_sym, N.eqb_neq in Ha. by rewrite Ha.
Qed.

Lemma startsWith_app (p s : list N) : startsWith p (p ++ s) = true.
Proof. induction p as [|a p IH]; [done|]. simpl. by rewrite N.eqb_refl. Qed.

Lemma includes_app_r (p x y : list N) : includes p (x ++ p ++ y) = true.
Proof.
  induction x as [|a x IH]; simpl.
  - destruct (p ++ y) eqn:E; cbn [includes]; rewrite <- E;
      by rewrite startsWith_app.
  - rewrite IH. apply orb_true_r.
Qed.

Lemma includes_cons (p : list N) (a : N) (s : list N) :
  includes p (a :: s) = startsWith p (a :: s) || includes p s.
Proof. done. Qed.

(** The time line splits at its arrow. *)
Lemma split_arrow (start y : list N) :
  includes ARROW start = false →
  split ARROW (start ++ [SP] ++ ARROW ++ y) = (start ++ [SP]) :: split ARROW y.
Proof.
  induction start as [|a s IH]; intros Hs.
  - unfold split. by destruct y.
  - rewrite includes_cons in Hs. apply orb_false_iff in Hs as [Ha Hs].
    specialize (IH Hs). unfold split in *.
    change ((a :: s) ++ [SP] ++ ARROW ++ y) with (a :: (s ++ [SP] ++ ARROW ++ y)).
    cbn [splitFrom].
    replace (startsWith ARROW (a :: s ++ [SP] ++ ARROW ++ y)) with false.
    + by rewrite IH.
    + symmetry. destruct s as [|b [|c s]]; simpl in *; lia.
Qed.

Lemma split_none (sep s : list N) : includes sep s = false → split sep s = [s].
Proof.
  unfold split. induction s as [|a s IH]; [done|].
  rewrite includes_cons. intros [Ha Hs]%orb_false_iff.
  cbn [splitFrom]. by rewrite Ha, IH.
Qed.

Lemma trimStart_length (s : list N) : (length (trimStart s) ≤ length s)%nat.
Proof.
  induction s as [|c r IH]; simpl; [done|]. destruct (isWhiteSpace c); simpl; lia.
Qed.

Lemma trimEnd_length (s : list N) : (length (trimEnd s) ≤ length s)%nat.
Proof.
  unfold trimEnd. rewrite length_rev.
  pose proof (trimStart_length (rev s)) as H. by rewrite length_rev in H.
Qed.

(** A string that is its own trim is empty or has visible ends. *)
Lemma trim_fixed (t : list N) :
  trim t = t →
  t = [] ∨ ∃ c r pre d, t = c :: r ∧ t = pre ++ [d]
                        ∧ isWhiteSpace c = false ∧ isWhiteSpace d = false.
Proof.
  intros Ht. destruct t as [|c r]; [by left|]. right.
  destruct (isWhiteSpace c) eqn:Hc.
  - exfalso. assert (Hlen : length (trim (c :: r)) = length (c :: r)) by by rewrite Ht.
    unfold trim in Hlen. cbn [trimStart] in Hlen. rewrite Hc in Hlen.
    pose proof (trimEnd_length (trimStart r)).
    pose proof (trimStart_length r). simpl in Hlen. lia.
  - unfold trim in Ht. rewrite trimStart_id in Ht by done.
    destruct (trimEnd_last (c :: r)) as [Hnil | (pre & d & Hpre & Hd)].
    + by rewrite Ht in Hnil.
    + rewrite Ht in Hpre. by exists c, r, pre, d.
Qed.

Lemma trimEnd_snoc_ws (s : list N) (c : N) :
  isWhiteSpace c = true → trimEnd (s ++ [c]) = trimEnd s.
Proof.
  intros Hc. unfold trimEnd. rewrite rev_app_distr. simpl. by rewrite Hc.
Qed.

Lemma trim_space_after (t : list N) : trim t = t → trim (t ++ [SP]) = t.
Proof.
  intros Ht. destruct (trim_fixed t Ht) as [-> | (c & r & pre & d & Hcr & Hpre & Hc & Hd)];
    [done|].
  unfold trim. rewrite Hcr. change ((c :: r) ++ [SP]) with (c :: (r ++ [SP])).
  rewrite trimStart_id by done. change (c :: (r ++ [SP])) with ((c :: r) ++ [SP]).
  rewrite trimEnd_snoc_ws by done. rewrite <- Hcr, Hpre. by apply trimEnd_snoc.
Qed.

Lemma trim_space_before (t : list N) : trim t = t → trim (SP :: t) = t.
Proof. done. Qed.

End RoundTripStrings.

(** ** The split into candidate blocks *)

Section Blocks.

Lemma endsVisible_last (s : list N) :
  endsVisible s = true ↔ ∃ pre d, s = pre ++ [d] ∧ isWhiteSpace d = false.
Proof.
  unfold endsVisible. split.
  - destruct (last s) as [d|] eqn:Hl; [|done].
    apply last_Some in Hl as [pre ->]. intros Hd%negb_true_iff. by exists pre, d.
  - intros (pre & d & -> & Hd). by rewrite last_snoc, Hd.
Qed.

Lemma visible_not_LF (c : N) : isWhiteSpace c = false → (LF =? c) = false.
Proof. unfold isWhiteSpace, LF. lia. Qed.

Lemma endsVisible_cons (c d : N) (r : list N) :
  endsVisible (c :: d :: r) = endsVisible (d :: r).
Proof. unfold endsVisible. by rewrite last_cons_cons. Qed.

Lemma splitBlankFrom_nonempty (s : list N) : ∀ inRun, splitBlankFrom inRun s ≠ [].
Proof.
  induction s as [|c r IH]; intros inRun; cbn [splitBlankFrom]; [done|].
  destruct (inRun && (c =? LF)); [apply IH|].
  destruct ((c =? LF) && startsWith [LF] r); [done|].
  specialize (IH false). by destruct (splitBlankFrom false r).
Qed.

Lemma splitBlankFrom_true (s : list N) :
  startsWith [LF] s = false → splitBlankFrom true s = splitBlankFrom false s.
Proof.
  destruct s as [|c r]; [done|]. cbn [startsWith splitBlankFrom].
  rewrite andb_true_r, N.eqb_sym. by intros ->.
Qed.

(** A piece without a blank line that ends visibly is split off whole at
    the blank line after it. *)
Lemma splitBlank_block (s rest : list N) :
  includes [LF; LF] s = false → endsVisible s = true →
  startsWith [LF] rest = false →
  splitBlankFrom false (s ++ LF :: LF :: rest) = s :: splitBlankFrom false rest.
Proof.
  intros Hs Hend Hrest. induction s as [|c r IH]; [done|].
  destruct r as [|d r'].
  - apply endsVisible_last in Hend as (pre & d & Hpre & Hd).
    assert (c = d) as ->.
    { destruct pre as [|? [|? ?]]; simplify_eq/=; done. }
    assert (Hne : (d =? LF) = false) by (by rewrite N.eqb_sym, visible_not_LF).
    change ([d] ++ LF :: LF :: rest) with (d :: LF :: LF :: rest).
    cbn [splitBlankFrom]. rewrite Hne. cbn [andb startsWith].
    change (LF =? LF) with true. cbn [andb].
    rewrite splitBlankFrom_true by done.
    pose proof (splitBlankFrom_nonempty rest false). done.
  - rewrite includes_cons in Hs. apply orb_false_iff in Hs as [Hcd Hs].
    rewrite endsVisible_cons in Hend. specialize (IH Hs Hend).
    change ((c :: d :: r') ++ LF :: LF :: rest)
      with (c :: ((d :: r') ++ LF :: LF :: rest)).
    cbn [splitBlankFrom]. rewrite IH. cbn [andb].
    replace ((c =? LF) && startsWith [LF] ((d :: r') ++ LF :: LF :: rest)) with false;
      [done|].
    clear IH. code_units.
Qed.

Lemma splitBlank_last (s : list N) :
  includes [LF; LF] s = false → splitBlankFrom false s = [s].
Proof.
  induction s as [|c r IH]; [done|].
  rewrite includes_cons. intros [Hc Hr]%orb_false_iff.
  cbn [splitBlankFrom]. rewrite IH by done. cbn [andb].
  replace ((c =? LF) && startsWith [LF] r) with false; [done|].
  clear IH. destruct r; code_units.
Qed.

Lemma startsWith_app_l (p : N) (s t : list N) :
  s ≠ [] → startsWith [p] (s ++ t) = startsWith [p] s.
Proof. by destruct s. Qed.

Lemma splitBlank_join (ss : list (list N)) :
  ss ≠ [] →
  Forall (λ s, includes [LF; LF] s = false ∧ startsWith [LF] s = false
               ∧ endsVisible s = true) ss →
  splitBlank (join [LF; LF] ss) = ss.
Proof.
  unfold splitBlank. induction ss as [|s ss IH]; [done|]. intros _ HF.
  apply Forall_cons in HF as [(Hs & Hhead & Hend) HF].
  destruct ss as [|s' ss'].
  - by apply splitBlank_last.
  - rewrite join_cons_nonempty by done.
    change ([LF; LF] ++ join [LF; LF] (s' :: ss'))
      with (LF :: LF :: join [LF; LF] (s' :: ss')).
    rewrite splitBlank_block, IH; try done.
    apply Forall_cons in HF as [(_ & Hhead' & Hend') _].
    assert (Hne : s' ≠ []).
    { apply endsVisible_last in Hend' as (pre & d & -> & _). by destruct pre. }
    destruct ss' as [|s'' ss'']; [done|].
    rewrite join_cons_nonempty by done. by rewrite startsWith_app_l.
Qed.

Lemma includes_blank_skip (x y : list N) :
  noCU LF x = true → includes [LF; LF] (x ++ y) = includes [LF; LF] y.
Proof.
  induction x as [|a x IH]; [done|]. intros [Ha Hx]%noCU_cons.
  change ((a :: x) ++ y) with (a :: (x ++ y)). rewrite includes_cons, IH by done.
  replace (startsWith [LF; LF] (a :: x ++ y)) with false; [done|].
  clear IH. destruct (x ++ y); code_units.
Qed.

Lemma includes_blank_LF (y : list N) :
  includes [LF; LF] (LF :: y) = startsWith [LF] y || includes [LF; LF] y.
Proof. rewrite includes_cons. f_equal. Qed.

Lemma noCU_join (c : N) (sep : list N) (ss : list (list N)) :
  noCU c sep = true → Forall (λ s, noCU c s = true) ss →
  noCU c (join sep ss) = true.
Proof.
  intros Hsep. induction 1 as [|s ss Hs HF IH]; [done|].
  destruct ss as [|s' ss']; [done|].
  rewrite join_cons_nonempty by done. rewrite !noCU_app, Hs, Hsep. by rewrite IH.
Qed.

End Blocks.

(** ** The round trip *)

Section RoundTrip.

Lemma numberToString_shape (z : Z) :
  ∃ c r, numberToString z = c :: r ∧ isWhiteSpace c = false
         ∧ noCU LF (c :: r) = true ∧ noCU CR (c :: r) = true.
Proof.
  destruct z as [|p|p]; unfold numberToString.
  - by exists 48, [].
  - pose proof (uintDigits_digits (Pos.to_uint p)) as Hds.
    pose proof (uintDigits_nonempty p) as Hne.
    destruct (uintDigits (Pos.to_uint p)) as [|c r]; [done|].
    exists c, r. split; [done|]. split.
    + apply isDigit_visible. cbn [forallb] in Hds.
      by apply andb_true_iff in Hds as [? _].
    + split; by apply noCU_digits.
  - exists 45, (uintDigits (Pos.to_uint p)). split; [done|]. split; [done|].
    split; apply noCU_cons; (split; [done|]);
      apply noCU_digits; auto using uintDigits_digits.
Qed.

Lemma cleanTime_spec (t : list N) :
  cleanTime t = true →
  noCU CR t = true ∧ noCU LF t = true ∧ includes ARROW t = false ∧ trim t = t.
Proof.
  unfold cleanTime.
  rewrite !andb_true_iff, negb_true_iff, bool_decide_eq_true. tauto.
Qed.

Lemma cleanText_spec (t : list N) :
  cleanText t = true →
  noCU CR t = true ∧ includes [LF; LF] t = false ∧ startsWith [LF] t = false
  ∧ endsVisible t = true.
Proof. unfold cleanText. rewrite !andb_true_iff, !negb_true_iff. tauto. Qed.

Lemma textContent_clean (b : SrtBlock) :
  cleanText (default (originalText b) (translatedText b)) = true →
  textContent b = default (originalText b) (translatedText b).
Proof.
  unfold textContent. destruct (translatedText b) as [[|c t]|]; try done.
Qed.

Lemma blockToString_lines (b : SrtBlock) :
  blockToString b
  = numberToString (id b) ++ LF :: timeLine (startTime b) (endTime b)
      ++ LF :: textContent b.
Proof. unfold blockToString, timeLine. by rewrite <- !app_assoc. Qed.

Lemma timeLine_parts (start stop : list N) :
  cleanTime start = true → cleanTime stop = true →
  noCU LF (timeLine start stop) = true
  ∧ noCU CR (timeLine start stop) = true
  ∧ startsWith [LF] (timeLine start stop) = false
  ∧ timeLine start stop ≠ []
  ∧ includes ARROW (timeLine start stop) = true
  ∧ map trim (split ARROW (timeLine start stop)) = [start; stop].
Proof.
  intros (HsCR & HsLF & HsA & Hst)%cleanTime_spec (HeCR & HeLF & HeA & Het)%cleanTime_spec.
  unfold timeLine. split; [|split; [|split; [|split; [|split]]]].
  - rewrite !noCU_app, HsLF, HeLF. done.
  - rewrite !noCU_app, HsCR, HeCR. done.
  - destruct start as [|a s]; [done|]. apply noCU_cons in HsLF as [Ha _].
    code_units.
  - by destruct start.
  - replace (start ++ [SP] ++ ARROW ++ [SP] ++ stop)
      with ((start ++ [SP]) ++ ARROW ++ ([SP] ++ stop))
      by (by rewrite <- !app_assoc).
    apply includes_app_r.
  - rewrite split_arrow by done. rewrite (split_none ARROW ([SP] ++ stop)).
    + cbn [map]. rewrite trim_space_after by done.
      change ([SP] ++ stop) with (SP :: stop). by rewrite trim_space_before.
    + change ([SP] ++ stop) with (SP :: stop). rewrite includes_cons, HeA.
      by destruct stop as [|? [|? ?]].
Qed.

(** A well-formed block is read back from its own serialization. *)
Lemma parseBlock_blockToString (b : SrtBlock) :
  wellFormed b = true → parseBlock (blockToString b) = Some (reparsed b).
Proof.
  unfold wellFormed. rewrite !andb_true_iff. intros [[[_ Hstart] Hstop] Htext].
  rewrite blockToString_lines, (textContent_clean b Htext).
  set (text := default (originalText b) (translatedText b)) in *.
  destruct (numberToString_shape (id b)) as (c & r & Hnum & Hc & HnumLF & _).
  destruct (timeLine_parts _ _ Hstart Hstop) as (HtlLF & _ & _ & _ & Hinc & Hparts).
  apply cleanText_spec in Htext as (_ & _ & _ & Hend).
  apply endsVisible_last in Hend as (pre & d & Htxt & Hd).
  set (tl := timeLine (startTime b) (endTime b)) in *.
  unfold parseBlock.
  rewrite (trim_id c d _ (r ++ LF :: tl ++ LF :: text)); try done.
  2:{ by rewrite Hnum. }
  2:{ exists (numberToString (id b) ++ LF :: tl ++ LF :: pre).
      rewrite Htxt, <- !app_assoc. cbn [app]. by rewrite <- !app_assoc. }
  rewrite split1_app by (by rewrite Hnum).
  rewrite split1_app by done.
  pose proof (splitFrom_nonempty [LF] text 0) as Hne. fold (split [LF] text) in Hne.
  cbn [nth drop length]. rewrite parseInt_numberToString, Hinc, Hparts.
  destruct (split [LF] text) as [|l ls] eqn:Hsplit; [done|].
  replace (S (S (length (l :: ls))) <? 3)%nat with false by done.
  cbn [negb nth drop]. rewrite <- Hsplit, join_split1.
  reflexivity.
Qed.

Lemma blockToString_solid (b : SrtBlock) :
  wellFormed b = true →
  noCU CR (blockToString b) = true
  ∧ includes [LF; LF] (blockToString b) = false
  ∧ startsWith [LF] (blockToString b) = false
  ∧ endsVisible (blockToString b) = true.
Proof.
  unfold wellFormed. rewrite !andb_true_iff. intros [[[_ Hstart] Hstop] Htext].
  rewrite blockToString_lines, (textContent_clean b Htext).
  set (text := default (originalText b) (translatedText b)) in *.
  destruct (numberToString_shape (id b)) as (c & r & Hnum & Hc & HnumLF & HnumCR).
  destruct (timeLine_parts _ _ Hstart Hstop) as (HtlLF & HtlCR & Hhead & Hne & _).
  apply cleanText_spec in Htext as (HtCR & Hblank & Htext & Hend).
  set (tl := timeLine (startTime b) (endTime b)) in *.
  split; [|split; [|split]].
  - rewrite noCU_app, Hnum, HnumCR. apply noCU_cons. split; [done|].
    rewrite noCU_app, HtlCR. by apply noCU_cons.
  - rewrite includes_blank_skip by (by rewrite Hnum).
    rewrite includes_blank_LF, startsWith_app_l, Hhead by done.
    rewrite includes_blank_skip by done.
    by rewrite includes_blank_LF, Htext, Hblank.
  - rewrite Hnum. cbn [app startsWith]. by rewrite (visible_not_LF c).
  - apply endsVisible_last in Hend as (pre & d & Htxt & Hd).
    apply endsVisible_last.
    exists (numberToString (id b) ++ LF :: tl ++ LF :: pre), d. split; [|done].
    rewrite Htxt, <- !app_assoc. cbn [app]. by rewrite <- !app_assoc.
Qed.

End RoundTrip.

(** C1 (amended). For every sequence of blocks whose times are single
    lines without arrow, carriage return or white space at either end,
    whose text (the translation where there is one, the original text
    otherwise) has no carriage return, no blank line, no line feed in
    front and no white space at its end, and whose ids are safe integers,
    parsing the serialization gives, block for block, the same id and
    times, and that text as [originalText]. *)
Theorem parseSRT_stringifySRT (B : list SrtBlock) :
  Forall (λ b, wellFormed b = true) B →
  parseSRT (stringifySRT B) = map reparsed B.
Proof.
  intros Hwf. unfold parseSRT, stringifySRT.
  destruct B as [|b0 B0]; [reflexivity|]. set (B := b0 :: B0) in *.
  rewrite normalize_id.
  2:{ apply noCU_join; [done|]. apply Forall_fmap.
      eapply Forall_impl; [exact Hwf|]. intros b Hb.
      by apply blockToString_solid. }
  rewrite splitBlank_join.
  2:{ done. }
  2:{ apply Forall_fmap. eapply Forall_impl; [exact Hwf|]. intros b Hb.
      by destruct (blockToString_solid b Hb) as (_ & ? & ? & ?). }
  clearbody B. induction Hwf as [|b B' Hb _ IH]; [done|].
  cbn [map omap list_omap]. by rewrite parseBlock_blockToString, IH.
Qed.

Lemma parseSRT_stringifySRT_witness :
  Forall (λ b, wellFormed b = true) translatedPair
  ∧ parseSRT (stringifySRT translatedPair) = map reparsed translatedPair.
Proof.
  assert (H : Forall (λ b, wellFormed b = true) translatedPair)
    by (repeat constructor; vm_compute; reflexivity).
  split; [exact H|]. exact (parseSRT_stringifySRT translatedPair H).
Defined.

(** C1, as stated, fails for a text that ends in a space: the text is not
    empty and has no blank line, the times have neither line feed nor
    arrow, and the block comes back without the space. *)
Lemma parseSRT_stringifySRT_trailing_space :
  originalText trailingSpace ≠ []
  ∧ translatedText trailingSpace = None
  ∧ includes [LF; LF] (originalText trailingSpace) = false
  ∧ noCU LF (startTime trailingSpace) = true
  ∧ includes ARROW (startTime trailingSpace) = false
  ∧ noCU LF (endTime trailingSpace) = true
  ∧ includes ARROW (endTime trailingSpace) = false
  ∧ parseSRT (stringifySRT [trailingSpace])
    = [parsedCue 1 "00:00:01,000" "00:00:02,000" "Hello"]
  ∧ map originalText (parseSRT (stringifySRT [trailingSpace]))
    ≠ [originalText trailingSpace].
Proof.
  repeat split; try (vm_compute; reflexivity); vm_compute; discriminate.
Qed.

(** * Further properties of the program *)

(** ** Pieces of strings *)

Section Pieces.

Lemma startsWith_prefix (p x b : list N) :
  startsWith p x = true → startsWith p (x ++ b) = true.
Proof.
  revert x. induction p as [|a p IH]; intros x; [done|].
  destruct x as [|c x]; [done|]. cbn [startsWith app].
  intros [-> Hx]%andb_true_iff. by rewrite IH.
Qed.

Lemma includes_suffix (p a x : list N) :
  includes p (a ++ x) = false → includes p x = false.
Proof.
  induction a as [|c a IH]; [done|]. cbn [app]. rewrite includes_cons.
  intros [_ H]%orb_false_iff. auto.
Qed.

Lemma includes_prefix (p x b : list N) :
  includes p (x ++ b) = false → includes p x = false.
Proof.
  induction x as [|c x IH].
  - cbn [app]. intros Hb. destruct p as [|a p]; [by destruct b|done].
  - cbn [app]. rewrite !includes_cons. intros [Hc Hx]%orb_false_iff.
    rewrite IH by done. rewrite orb_false_r.
    destruct (startsWith p (c :: x)) eqn:E; [|done].
    apply (startsWith_prefix _ _ b) in E. cbn [app] in E. congruence.
Qed.

Lemma includes_infix (p a x b : list N) :
  includes p (a ++ x ++ b) = false → includes p x = false.
Proof. intros H%includes_suffix. by apply includes_prefix in H. Qed.

Lemma noCU_infix (c : N) (a x b : list N) :
  noCU c (a ++ x ++ b) = true → noCU c x = true.
Proof. rewrite !noCU_app, !andb_true_iff. tauto. Qed.

Lemma includes1_noCU (c : N) (s : list N) :
  includes [c] s = false → noCU c s = true.
Proof.
  induction s as [|x s IH]; [done|]. rewrite includes_cons.
  intros [Hx Hs]%orb_false_iff. apply noCU_cons. split; [|auto].
  cbn [startsWith] in Hx. lia.
Qed.

Lemma trimStart_suffix (s : list N) : ∃ a, s = a ++ trimStart s.
Proof.
  induction s as [|c r [a IH]]; [by exists []|]. cbn [trimStart].
  destruct (isWhiteSpace c); [|by exists []].
  exists (c :: a). cbn [app]. by rewrite <- IH.
Qed.

Lemma trimEnd_prefix (s : list N) : ∃ b, s = trimEnd s ++ b.
Proof.
  unfold trimEnd. destruct (trimStart_suffix (rev s)) as [a Ha].
  exists (rev a). by rewrite <- rev_app_distr, <- Ha, rev_involutive.
Qed.

Lemma trim_infix (s : list N) : ∃ a b, s = a ++ trim s ++ b.
Proof.
  unfold trim. destruct (trimStart_suffix s) as [a Ha].
  destruct (trimEnd_prefix (trimStart s)) as [b Hb].
  exists a, b. by rewrite <- Hb.
Qed.

(** Trimming twice is trimming once. *)
Lemma trim_trim (s : list N) : trim (trim s) = trim s.
Proof.
  unfold trim at 2 3.
  destruct (trimStart_head s) as [-> | (c & r & -> & Hc)]; [done|].
  destruct (trimEnd_last (c :: r)) as [-> | (pre & d & Hpre & Hd)]; [done|].
  assert (Hhead : ∃ r', trimEnd (c :: r) = c :: r').
  { unfold trimEnd. cbn [rev].
    destruct (trimStart_snoc (rev r) c Hc) as [q ->].
    rewrite rev_app_distr. by eexists. }
  destruct Hhead as [r' Hr']. apply (trim_id c d _ r'); try done.
  exists pre. done.
Qed.

Lemma splitFrom_head_prefix (sep s : list N) (p : list N) (ps : list (list N)) :
  splitFrom sep 0 s = p :: ps → ∃ y, s = p ++ y.
Proof.
  revert p ps. induction s as [|c r IH]; intros p ps; cbn [splitFrom].
  - intros [= <- <-]. by exists [].
  - destruct (startsWith sep (c :: r)).
    + intros [= <- _]. by eexists.
    + destruct (splitFrom sep 0 r) as [|q qs] eqn:E; cbn [consHead].
      * intros [= <- _]. exists r. done.
      * intros [= <- _]. destruct (IH q qs eq_refl) as [y ->]. by exists y.
Qed.

(** No piece of a split holds the separator. *)
Lemma splitFrom_pieces (sep s : list N) :
  sep ≠ [] → ∀ k, Forall (λ p, includes sep p = false) (splitFrom sep k s).
Proof.
  intros Hsep. assert (Hnil : includes sep [] = false) by by destruct sep.
  induction s as [|c r IH]; intros k; cbn [splitFrom].
  - by constructor.
  - destruct k as [|k]; [|apply IH].
    destruct (startsWith sep (c :: r)) eqn:Hc.
    + constructor; [done | apply IH].
    + specialize (IH 0%nat). pose proof (splitFrom_nonempty sep r 0) as Hne.
      destruct (splitFrom sep 0 r) as [|q qs] eqn:E; cbn [consHead]; [done|].
      * apply Forall_cons in IH as [Hq Hqs]. constructor; [|done].
        rewrite includes_cons, Hq, orb_false_r.
        destruct (splitFrom_head_prefix _ _ _ _ E) as [y ->].
        destruct (startsWith sep (c :: q)) eqn:Hcq; [|done].
        apply (startsWith_prefix _ _ y) in Hcq. cbn [app] in Hcq. congruence.
Qed.

(** No piece of the split into candidate blocks holds a blank line, and
    a piece holds only code units of the content. *)
Lemma splitBlankFrom_pieces (s : list N) :
  ∀ inRun,
    Forall (λ p, includes [LF; LF] p = false) (splitBlankFrom inRun s)
    ∧ (startsWith [LF] s = false →
       startsWith [LF] (hd [] (splitBlankFrom inRun s)) = false).
Proof.
  induction s as [|c r IH]; intros inRun; cbn [splitBlankFrom].
  - split; [by constructor | done].
  - destruct (inRun && (c =? LF)) eqn:H1.
    { split; [apply IH|]. intros Hc. exfalso. clear IH. code_units. }
    destruct ((c =? LF) && startsWith [LF] r) eqn:H2.
    { split; [constructor; [done | apply IH]|]. done. }
    destruct (IH false) as [HF Hhead].
    pose proof (splitBlankFrom_nonempty r false) as Hne.
    destruct (splitBlankFrom false r) as [|q qs]; [done|]. cbn [consHead hd] in *.
    apply Forall_cons in HF as [Hq Hqs]. split.
    + constructor; [|done]. rewrite includes_cons, Hq, orb_false_r.
      destruct (c =? LF) eqn:Hc.
      * cbn [andb] in H2. specialize (Hhead H2). clear IH.
        destruct q; code_units.
      * clear IH Hhead. destruct q; code_units.
    + intros Hc. clear IH Hhead. code_units.
Qed.

Lemma splitBlankFrom_noCU (c : N) (s : list N) :
  noCU c s = true → ∀ inRun, Forall (λ p, noCU c p = true) (splitBlankFrom inRun s).
Proof.
  induction s as [|x r IH]; intros Hs inRun; cbn [splitBlankFrom].
  - by constructor.
  - apply noCU_cons in Hs as [Hx Hr]. specialize (IH Hr).
    destruct (inRun && (x =? LF)); [apply IH|].
    destruct ((x =? LF) && startsWith [LF] r); [constructor; [done | apply IH]|].
    specialize (IH false). pose proof (splitBlankFrom_nonempty r false) as Hne.
    destruct (splitBlankFrom false r) as [|q qs]; cbn [consHead]; [done|].
    apply Forall_cons in IH as [Hq Hqs]. constructor; [|done].
    apply noCU_cons. done.
Qed.

Lemma normalize_noCR (content : list N) : noCU CR (normalize content) = true.
Proof.
  unfold normalize, replaceAll. induction (replaceCRLF content) as [|x r IH]; [done|].
  cbn [map]. apply noCU_cons. split; [|done].
  destruct (x =? CR) eqn:E; unfold CR, LF in *; lia.
Qed.

End Pieces.

(** ** What parseSRT returns is well formed *)

Section ParsedBlocks.

Lemma splitFrom_noCU (c : N) (sep s : list N) :
  noCU c s = true → ∀ k, Forall (λ p, noCU c p = true) (splitFrom sep k s).
Proof.
  induction s as [|x r IH]; intros Hs k; cbn [splitFrom].
  - by constructor.
  - apply noCU_cons in Hs as [Hx Hr]. specialize (IH Hr).
    destruct k as [|k]; [|apply IH].
    destruct (startsWith sep (x :: r)); [constructor; [done | apply IH]|].
    specialize (IH 0%nat). pose proof (splitFrom_nonempty sep r 0) as Hne.
    destruct (splitFrom sep 0 r) as [|q qs]; cbn [consHead]; [done|].
    apply Forall_cons in IH as [Hq Hqs]. constructor; [|done].
    apply noCU_cons. done.
Qed.

Lemma Forall_nth_default {A} (P : A → Prop) (l : list A) (d : A) (i : nat) :
  Forall P l → P d → P (nth i l d).
Proof.
  intros HF Hd. revert i. induction HF as [|x l Hx _ IH]; intros [|i]; simpl; auto.
Qed.

Lemma cleanTime_trim (x : list N) :
  noCU CR x = true → noCU LF x = true → includes ARROW x = false →
  cleanTime (trim x) = true.
Proof.
  intros HCR HLF HA. destruct (trim_infix x) as (a & b & Hx).
  rewrite Hx in HCR, HLF, HA. unfold cleanTime.
  rewrite (noCU_infix _ _ _ _ HCR), (noCU_infix _ _ _ _ HLF).
  rewrite (includes_infix _ _ _ _ HA). cbn [andb negb].
  apply bool_decide_eq_true. apply trim_trim.
Qed.

(** A block parsed from a candidate without carriage return or blank
    line has clean times and a clean text, and no translation. *)
Lemma parseBlock_clean (block : list N) (b : SrtBlock) :
  noCU CR block = true → includes [LF; LF] block = false →
  parseBlock block = Some b →
  cleanTime (startTime b) = true ∧ cleanTime (endTime b) = true
  ∧ cleanText (originalText b) = true
  ∧ translatedText b = None ∧ isFromReference b = None.
Proof.
  intros HCR Hblank Hb.
  destruct (parseBlock_text_last _ _ Hb) as (pre & d & Htext & Hd).
  revert Hb Htext. unfold parseBlock.
  destruct (trim_infix block) as (x & y & Hinfix).
  rewrite Hinfix in HCR, Hblank.
  apply noCU_infix in HCR. apply includes_infix in Hblank.
  pose proof (join_split1 LF (trim block)) as Hjoin.
  pose proof (splitFrom_pieces [LF] (trim block) ltac:(done) 0) as HnoLF.
  pose proof (splitFrom_noCU CR [LF] (trim block) HCR 0) as HnoCR.
  fold (split [LF] (trim block)) in HnoLF, HnoCR.
  destruct (split [LF] (trim block)) as [|l0 [|l1 [|l2 rest]]]; try done.
  cbn [length nth drop]. replace (S (S (S (length rest))) <? 3)%nat with false by done.
  destruct (parseInt l0) as [n|]; [|done].
  destruct (negb (includes ARROW l1)); [done|].
  intros [= <-]. cbn [startTime endTime originalText translatedText isFromReference].
  intros Htext.
  apply Forall_cons in HnoLF as [_ [Hl1LF _]%Forall_cons].
  apply Forall_cons in HnoCR as [_ [Hl1CR _]%Forall_cons].
  apply includes1_noCU in Hl1LF.
  pose proof (splitFrom_pieces ARROW l1 ltac:(done) 0) as HpA.
  pose proof (splitFrom_noCU CR ARROW l1 Hl1CR 0) as HpCR.
  pose proof (splitFrom_noCU LF ARROW l1 Hl1LF 0) as HpLF.
  fold (split ARROW l1) in HpA, HpCR, HpLF.
  assert (Htime : ∀ i, cleanTime (nth i (map trim (split ARROW l1)) []) = true).
  { intros i. change (@nil N) with (trim []) at 1. rewrite map_nth.
    apply cleanTime_trim; by apply Forall_nth_default. }
  split; [apply Htime|]. split; [apply Htime|]. split; [|done].
  rewrite !join_cons_nonempty in Hjoin by done.
  set (text := join [LF] (l2 :: rest)) in *.
  rewrite <- Hjoin in HCR, Hblank.
  rewrite !noCU_app, !andb_true_iff in HCR. destruct HCR as (_ & _ & _ & _ & HtCR).
  rewrite app_assoc, app_assoc in Hblank. apply includes_suffix in Hblank.
  change ([LF] ++ text) with (LF :: text) in Hblank.
  rewrite includes_blank_LF in Hblank. apply orb_false_iff in Hblank as [Hhead Hblank].
  change (text = pre ++ [d]) in Htext. change (cleanText text = true).
  unfold cleanText. rewrite HtCR, Hblank, Hhead. cbn [andb negb].
  apply endsVisible_last. by exists pre, d.
Qed.

Lemma parseSRT_clean (content : list N) :
  Forall (λ b, cleanTime (startTime b) = true ∧ cleanTime (endTime b) = true
               ∧ cleanText (originalText b) = true
               ∧ translatedText b = None ∧ isFromReference b = None)
         (parseSRT content).
Proof.
  apply Forall_forall. intros b (block & Hblock & Hb)%parseSRT_elem.
  apply (parseBlock_clean block); [| |done].
  - pose proof (splitBlankFrom_noCU CR _ (normalize_noCR content) false) as HF.
    by apply (proj1 (Forall_forall _ _) HF).
  - destruct (splitBlankFrom_pieces (normalize content) false) as [HF _].
    by apply (proj1 (Forall_forall _ _) HF).
Qed.

(** Serialized well-formed blocks parse back block for block. *)
Lemma parse_serialized (B : list SrtBlock) :
  Forall (λ b, wellFormed b = true) B →
  parseSRT (stringifySRT B) = map reparsed B.
Proof.
  intros Hwf. unfold parseSRT, stringifySRT.
  destruct B as [|b0 B0]; [done|].
  rewrite normalize_id, splitBlank_join; [| done | |].
  - induction Hwf as [|b B' Hb _ IH]; [done|].
    cbn [map omap list_omap]. by rewrite parseBlock_blockToString, IH.
  - apply Forall_fmap. eapply Forall_impl; [exact Hwf|]. intros b Hb.
    by destruct (blockToString_solid b Hb) as (_ & ? & ? & ?).
  - apply noCU_join; [done|]. apply Forall_fmap.
    eapply Forall_impl; [exact Hwf|]. intros b Hb. by apply blockToString_solid.
Qed.

End ParsedBlocks.

(** X1. Parsing, serializing and parsing again gives what parsing gave,
    for every content whose ids are safe integers. *)
Theorem parseSRT_stringifySRT_parseSRT (content : list N) :
  Forall (λ b, safeInteger (id b) = true) (parseSRT content) →
  parseSRT (stringifySRT (parseSRT content)) = parseSRT content.
Proof.
  intros Hsafe. pose proof (parseSRT_clean content) as Hclean.
  rewrite parse_serialized.
  - clear Hsafe. induction Hclean as [|b B (_ & _ & _ & Ht & Hr) _ IH]; [done|].
    cbn [map]. rewrite IH. f_equal. destruct b as [n s e o t r].
    cbn in *. by subst.
  - apply Forall_forall. intros b Hb.
    pose proof (proj1 (Forall_forall _ _) Hsafe b Hb) as Hs.
    apply (proj1 (Forall_forall _ _) Hclean) in Hb.
    destruct Hb as (H1 & H2 & H3 & Ht & _).
    unfold wellFormed. rewrite Hs, H1, H2, Ht. cbn [from_option andb]. exact H3.
Qed.

Lemma parseSRT_stringifySRT_parseSRT_witness :
  Forall (λ b, safeInteger (id b) = true) (parseSRT sample2)
  ∧ parseSRT (stringifySRT (parseSRT sample2)) = parseSRT sample2.
Proof.
  assert (H : Forall (λ b, safeInteger (id b) = true) (parseSRT sample2))
    by (refine (bool_decide_unpack _ _); vm_compute; exact I).
  split; [exact H|]. exact (parseSRT_stringifySRT_parseSRT sample2 H).
Defined.

(** ** Line endings and concatenation *)

Section LineEndings.

Lemma list_ind2 {A} (P : list A → Prop) :
  P [] → (∀ x, P [x]) → (∀ x y l, P l → P (y :: l) → P (x :: y :: l)) →
  ∀ l, P l.
Proof.
  intros H0 H1 H2 l. assert (H : P l ∧ ∀ x, P (x :: l)); [|tauto].
  induction l as [|y l [IH1 IH2]]; [by split|]. split; [apply IH2|].
  intros x. by apply H2.
Qed.

Lemma replaceCRLF_cons_ne (c : N) (r : list N) :
  c ≠ CR → replaceCRLF (c :: r) = c :: replaceCRLF r.
Proof.
  intros Hc. cbn [replaceCRLF]. destruct r as [|d r']; [done|].
  apply N.eqb_neq in Hc. by rewrite Hc.
Qed.

(** Carriage return and line feed are replaced within the two parts of a
    string, unless the pair is cut. *)
Lemma replaceCRLF_app (a b : list N) :
  last a ≠ Some CR ∨ head b ≠ Some LF →
  replaceCRLF (a ++ b) = replaceCRLF a ++ replaceCRLF b.
Proof.
  induction a as [|x|x y l IH1 IH2] using list_ind2; intros Hcut.
  - done.
  - cbn [app replaceCRLF]. destruct b as [|d b']; [done|].
    destruct ((x =? CR) && (d =? LF)) eqn:E; [|done].
    exfalso. apply andb_true_iff in E as [->%N.eqb_eq ->%N.eqb_eq].
    by destruct Hcut.
  - rewrite last_cons_cons in Hcut. cbn [app replaceCRLF].
    destruct ((x =? CR) && (y =? LF)) eqn:E.
    + cbn [app]. f_equal. apply IH1. destruct l as [|z l]; [by left|].
      by rewrite last_cons_cons in Hcut.
    + cbn [app]. f_equal. by apply IH2.
Qed.

Lemma normalize_app_blank (a b : list N) :
  last a ≠ Some CR →
  normalize (a ++ LF :: LF :: b) = normalize a ++ LF :: LF :: normalize b.
Proof.
  intros Ha. unfold normalize. rewrite replaceCRLF_app by by left.
  rewrite !replaceCRLF_cons_ne by done. unfold replaceAll. by rewrite map_app.
Qed.

Lemma normalize_snoc (a : list N) (x : N) :
  x ≠ LF → x ≠ CR → normalize (a ++ [x]) = normalize a ++ [x].
Proof.
  intros HLF HCR. unfold normalize. rewrite replaceCRLF_app.
  - unfold replaceAll. rewrite map_app. cbn [replaceCRLF map].
    apply N.eqb_neq in HCR. by rewrite HCR.
  - right. cbn. congruence.
Qed.

Lemma normalize_cons (y : N) (b : list N) :
  y ≠ CR → normalize (y :: b) = y :: normalize b.
Proof.
  intros HCR. unfold normalize. rewrite replaceCRLF_cons_ne by done.
  unfold replaceAll. cbn [map]. apply N.eqb_neq in HCR. by rewrite HCR.
Qed.

(** A blank line between two parts, the first not ending and the second
    not starting with a line feed, separates their candidate blocks. *)
Lemma splitBlankFrom_app (s rest : list N) (x : N) :
  last s = Some x → x ≠ LF → startsWith [LF] rest = false →
  ∀ inRun, splitBlankFrom inRun (s ++ LF :: LF :: rest)
           = splitBlankFrom inRun s ++ splitBlankFrom false rest.
Proof.
  intros Hlast Hx Hrest. induction s as [|c r IH]; [done|]. intros inRun.
  destruct r as [|d r'].
  - injection Hlast as ->. apply N.eqb_neq in Hx.
    cbn [app splitBlankFrom startsWith]. rewrite Hx, andb_false_r. cbn [andb].
    change (LF =? LF) with true. cbn [andb consHead app].
    by rewrite splitBlankFrom_true.
  - rewrite last_cons_cons in Hlast. specialize (IH Hlast).
    assert (Hhead : startsWith [LF] ((d :: r') ++ LF :: LF :: rest)
                    = startsWith [LF] (d :: r')) by done.
    remember (d :: r') as t eqn:Ht. clear Ht.
    change ((c :: t) ++ LF :: LF :: rest) with (c :: (t ++ LF :: LF :: rest)).
    cbn [splitBlankFrom]. rewrite !IH, Hhead.
    destruct (inRun && (c =? LF)); [done|].
    destruct ((c =? LF) && startsWith [LF] t); [done|].
    pose proof (splitBlankFrom_nonempty t false) as Hne.
    by destruct (splitBlankFrom false t).
Qed.

Lemma withLineBreaks_CR_noLF (s : list N) : noCU LF (withLineBreaks [CR] s) = true.
Proof.
  induction s as [|c r IH]; [done|]. unfold withLineBreaks in *. cbn [flat_map].
  rewrite noCU_app, IH, andb_true_r. destruct (c =? LF) eqn:E; [done|].
  apply noCU_cons. split; [|done]. by apply N.eqb_neq.
Qed.

Lemma replaceCRLF_noLF (s : list N) : noCU LF s = true → replaceCRLF s = s.
Proof.
  induction s as [|x|x y l IH1 IH2] using list_ind2; [done..|].
  intros [Hx Hyl]%noCU_cons. pose proof Hyl as [Hy Hl]%noCU_cons.
  rewrite <- (IH2 Hyl) at 2. apply N.eqb_neq in Hy.
  change (replaceCRLF (x :: y :: l))
    with (if (x =? CR) && (y =? LF) then LF :: replaceCRLF l
          else x :: replaceCRLF (y :: l)).
  by rewrite Hy, andb_false_r.
Qed.

Lemma normalize_withLineBreaks_CRLF (s : list N) :
  noCU CR s = true → normalize (withLineBreaks [CR; LF] s) = s.
Proof.
  induction s as [|c r IH]; [done|]. intros [Hc Hr]%noCU_cons.
  unfold withLineBreaks in *. cbn [flat_map]. destruct (c =? LF) eqn:E.
  - apply N.eqb_eq in E as ->. cbn [app]. unfold normalize in *.
    cbn [replaceCRLF]. change ((CR =? CR) && (LF =? LF)) with true. cbv iota.
    unfold replaceAll in *. cbn [map]. change (LF =? CR) with false. cbv iota.
    by rewrite IH.
  - cbn [app]. rewrite normalize_cons by done. by rewrite IH.
Qed.

Lemma normalize_withLineBreaks_CR (s : list N) :
  noCU CR s = true → normalize (withLineBreaks [CR] s) = s.
Proof.
  intros Hs. unfold normalize.
  rewrite replaceCRLF_noLF by apply withLineBreaks_CR_noLF.
  induction s as [|c r IH]; [done|]. apply noCU_cons in Hs as [Hc Hr].
  unfold withLineBreaks, replaceAll in *. cbn [flat_map].
  rewrite map_app, IH by done. destruct (c =? LF) eqn:E.
  - apply N.eqb_eq in E as ->. done.
  - cbn [map app]. apply N.eqb_neq in Hc. by rewrite Hc.
Qed.

End LineEndings.

(** X2. A content without carriage return parses the same when its line
    feeds are written as carriage return and line feed, or as carriage
    return alone. *)
Theorem parseSRT_line_endings (content : list N) :
  noCU CR content = true →
  parseSRT (withLineBreaks [CR; LF] content) = parseSRT content
  ∧ parseSRT (withLineBreaks [CR] content) = parseSRT content.
Proof.
  intros H. unfold parseSRT.
  by rewrite normalize_withLineBreaks_CRLF, normalize_withLineBreaks_CR, normalize_id.
Qed.

Lemma parseSRT_line_endings_witness :
  noCU CR sample1 = true
  ∧ parseSRT (withLineBreaks [CR; LF] sample1) = parseSRT sample1
  ∧ parseSRT (withLineBreaks [CR] sample1) = parseSRT sample1.
Proof.
  assert (H : noCU CR sample1 = true) by (vm_compute; reflexivity).
  split; [exact H|]. exact (parseSRT_line_endings sample1 H).
Defined.

(** X3. Two contents joined by a blank line, the first ending and the
    second starting with a code unit that is neither line feed nor
    carriage return, parse to the blocks of the first followed by the
    blocks of the second. *)
Theorem parseSRT_app (a b : list N) (x y : N) :
  last a = Some x → head b = Some y →
  x ≠ LF → x ≠ CR → y ≠ LF → y ≠ CR →
  parseSRT (a ++ [LF; LF] ++ b) = parseSRT a ++ parseSRT b.
Proof.
  intros Ha Hb HxLF HxCR HyLF HyCR. unfold parseSRT, splitBlank.
  apply last_Some in Ha as [a' ->]. destruct b as [|y' b']; [done|].
  injection Hb as ->. cbn [app].
  rewrite normalize_app_blank by (rewrite last_snoc; congruence).
  rewrite normalize_snoc, normalize_cons by done.
  rewrite (splitBlankFrom_app _ _ x); [by rewrite omap_app | apply last_snoc | done |].
  cbn [startsWith]. apply not_eq_sym, N.eqb_neq in HyLF. by rewrite HyLF.
Qed.

Lemma parseSRT_app_witness :
  last sample1 = Some 101 ∧ head sample3 = Some 51
  ∧ parseSRT (sample1 ++ [LF; LF] ++ sample3) = parseSRT sample1 ++ parseSRT sample3.
Proof.
  assert (H1 : last sample1 = Some 101) by (vm_compute; reflexivity).
  assert (H2 : head sample3 = Some 51) by (vm_compute; reflexivity).
  split; [exact H1|]. split; [exact H2|].
  apply (parseSRT_app sample1 sample3 101 51 H1 H2); discriminate.
Defined.

(** ** More on alignSrts *)

Section AlignerMore.

(** What a pair keeps of its original block. *)
Let kept (b : SrtBlock) : Z * list N * list N * list N :=
  (id b, startTime b, endTime b, originalText b).

Lemma alignFrom_sublist (tm : gmap Z SrtBlock) (tbs l : list SrtBlock) :
  ∀ i, map kept (alignFrom tm tbs i l) `sublist_of` map kept l.
Proof.
  induction l as [|a l IH]; intros i; cbn [alignFrom map]; [done|].
  destruct (findTrans tm tbs a i); cbn [map].
  - by apply sublist_skip.
  - by apply sublist_cons.
Qed.

Lemma alignFrom_sound (tm : gmap Z SrtBlock) (tbs l : list SrtBlock) (p : SrtBlock) :
  (∀ k b, tm !! k = Some b → b ∈ tbs) →
  ∀ i, p ∈ alignFrom tm tbs i l →
  ∃ a t, a ∈ l ∧ t ∈ tbs ∧ p = withTranslation a (originalText t).
Proof.
  intros Htm. induction l as [|a l IH]; intros i; cbn [alignFrom].
  - by rewrite elem_of_nil.
  - destruct (findTrans tm tbs a i) as [t|] eqn:Hfind.
    + rewrite elem_of_cons. intros [-> | Hp].
      * exists a, t. split; [apply list_elem_of_here|]. split; [|done].
        apply findTrans_spec in Hfind as [Hlook | (_ & _ & Hlook & _)].
        -- by apply (Htm (id a)).
        -- apply list_elem_of_lookup. by exists i.
      * destruct (IH _ Hp) as (a' & t' & Ha' & Ht' & ->).
        exists a', t'. split; [by apply list_elem_of_further | done].
    + intros Hp. destruct (IH _ Hp) as (a' & t' & Ha' & Ht' & ->).
      exists a', t'. split; [by apply list_elem_of_further | done].
Qed.

Lemma alignFrom_by_position (tm : gmap Z SrtBlock) (tbs : list SrtBlock) :
  ∀ (l2 t2 : list SrtBlock), Forall2 (λ a b, startTime b = startTime a) l2 t2 →
  (∀ a, a ∈ l2 → tm !! id a = None) →
  ∀ t1, tbs = t1 ++ t2 →
  alignFrom tm tbs (length t1) l2
  = zip_with (λ a b, withTranslation a (originalText b)) l2 t2.
Proof.
  induction 1 as [|a b l2 t2 Hab HF IH]; intros Hnone t1 Htbs; [done|].
  cbn [alignFrom zip_with].
  assert (Hfind : findTrans tm tbs a (length t1) = Some b).
  { apply findTrans_spec. right. rewrite Htbs.
    split; [apply Hnone, list_elem_of_here|].
    split; [rewrite length_app; simpl; lia|].
    split; [by rewrite list_lookup_middle | done]. }
  rewrite Hfind. f_equal.
  replace (S (length t1)) with (length (t1 ++ [b])) by (rewrite length_app; simpl; lia).
  apply IH.
  - intros a' Ha'. by apply Hnone, list_elem_of_further.
  - by rewrite <- app_assoc.
Qed.

End AlignerMore.

(** X4. Every pair [alignSrts] returns is a block of the original track
    with, as translation, the non-empty text of a block of the translated
    track; the pairs follow the order of the original track; and a
    translated track without blocks gives no pair. *)
Theorem alignSrts_sound (A B : list N) :
  (∀ p, p ∈ alignSrts A B →
     ∃ a t, a ∈ parseSRT A ∧ t ∈ parseSRT B
            ∧ p = withTranslation a (originalText t)
            ∧ truthy (translatedText p) = true)
  ∧ map (λ b, (id b, startTime b, endTime b, originalText b)) (alignSrts A B)
    `sublist_of`
    map (λ b, (id b, startTime b, endTime b, originalText b)) (parseSRT A)
  ∧ (parseSRT B = [] → alignSrts A B = []).
Proof.
  split; [|split].
  - intros p Hp. unfold alignSrts in Hp.
    apply alignFrom_sound in Hp as (a & t & Ha & Ht & ->).
    + exists a, t. split; [done|]. split; [done|]. split; [done|].
      cbn [withTranslation translatedText truthy].
      pose proof (parseSRT_trim_text_nonempty B t Ht) as Hne.
      destruct (originalText t); [by rewrite trim_nil in Hne | done].
    + intros k b Hb. by apply translatedMapOf_lookup_Some in Hb as [? _].
  - apply alignFrom_sublist.
  - intros HB. unfold alignSrts. rewrite HB.
    generalize 0%nat. induction (parseSRT A) as [|a l IH]; intros i; [done|].
    cbn [alignFrom]. replace (findTrans _ _ a i) with (@None SrtBlock); [apply IH|].
    unfold findTrans, translatedMapOf. cbn [fold_left length].
    rewrite lookup_empty. by destruct i.
Qed.

(** X5. When no id of the original track occurs in the translated track,
    the ids being safe integers, and the blocks at every position have
    the same start time, every original block is paired with the
    translated block at its position: it comes back with the text of
    that block as [translatedText]. *)
Theorem alignSrts_by_position (A B : list N) :
  safeIds A → safeIds B →
  (∀ a b, a ∈ parseSRT A → b ∈ parseSRT B → id a ≠ id b) →
  Forall2 (λ a b, startTime b = startTime a) (parseSRT A) (parseSRT B) →
  alignSrts A B
  = zip_with (λ a b, {| id := id a;
                        startTime := startTime a;
                        endTime := endTime a;
                        originalText := originalText a;
                        translatedText := Some (originalText b);
                        isFromReference := isFromReference a |})
             (parseSRT A) (parseSRT B).
Proof.
  intros _ _ Hids HF. unfold alignSrts.
  apply (alignFrom_by_position _ _ _ _ HF) with (t1 := []); [|done].
  intros a Ha.
  destruct (translatedMapOf (parseSRT B) !! id a) as [b|] eqn:Hlook; [|done].
  apply translatedMapOf_lookup_Some in Hlook as [Hb Hid].
  by destruct (Hids a b Ha Hb).
Qed.

Lemma alignSrts_by_position_witness :
  safeIds sample1 ∧ safeIds sample6
  ∧ Forall (λ a, Forall (λ b, id a ≠ id b) (parseSRT sample6)) (parseSRT sample1)
  ∧ Forall2 (λ a b, startTime b = startTime a) (parseSRT sample1) (parseSRT sample6)
  ∧ alignSrts sample1 sample6
    = zip_with (λ a b, {| id := id a;
                          startTime := startTime a;
                          endTime := endTime a;
                          originalText := originalText a;
                          translatedText := Some (originalText b);
                          isFromReference := isFromReference a |})
               (parseSRT sample1) (parseSRT sample6).
Proof.
  assert (S1 : safeIds sample1)
    by (unfold safeIds; refine (bool_decide_unpack _ _); vm_compute; exact I).
  assert (S6 : safeIds sample6)
    by (unfold safeIds; refine (bool_decide_unpack _ _); vm_compute; exact I).
  assert (H1 : Forall (λ a, Forall (λ b, id a ≠ id b) (parseSRT sample6))
                      (parseSRT sample1))
    by (refine (bool_decide_unpack _ _); vm_compute; exact I).
  assert (H2 : Forall2 (λ a b, startTime b = startTime a)
                       (parseSRT sample1) (parseSRT sample6))
    by (refine (bool_decide_unpack _ _); vm_compute; exact I).
  split; [exact S1|]. split; [exact S6|]. split; [exact H1|]. split; [exact H2|].
  apply alignSrts_by_position; [exact S1 | exact S6 | | exact H2].
  intros a b Ha Hb. apply (proj1 (Forall_forall _ _) H1) in Ha.
  by apply (proj1 (Forall_forall _ _) Ha) in Hb.
Defined.

(** ** More on createReferenceMap *)

Section ReferenceMapMore.

Variables originals translations : list SrtBlock.

Lemma referenceStep_lookup (m : gmap (list N) (list N)) (i : nat) (k v : list N) :
  referenceStep originals translations m i !! k = Some v →
  m !! k = Some v
  ∨ ∃ o t, originals !! i = Some o ∧ translations !! i = Some t
           ∧ k = trim (originalText o) ∧ v = trim (originalText t)
           ∧ k ≠ [] ∧ v ≠ [].
Proof.
  unfold referenceStep.
  destruct (originals !! i) as [o|]; [|by left].
  destruct (translations !! i) as [t|]; [|by left].
  destruct (truthy (Some (trim (originalText o)))
            && truthy (Some (trim (originalText t)))) eqn:E; [|by left].
  apply andb_true_iff in E as [Hk Hv].
  destruct (decide (trim (originalText o) = k)) as [<- | Hne].
  - rewrite lookup_insert_eq. intros [= <-]. right. exists o, t.
    repeat split; try done.
    + by destruct (trim (originalText o)).
    + by destruct (trim (originalText t)).
  - rewrite lookup_insert_ne by done. by left.
Qed.

Lemma referenceFold_lookup (l : list nat) (k v : list N) :
  ∀ m, fold_left (referenceStep originals translations) l m !! k = Some v →
  m !! k = Some v
  ∨ ∃ i o t, i ∈ l ∧ originals !! i = Some o ∧ translations !! i = Some t
             ∧ k = trim (originalText o) ∧ v = trim (originalText t)
             ∧ k ≠ [] ∧ v ≠ [].
Proof.
  induction l as [|i l IH]; intros m; cbn [fold_left]; [by left|].
  intros [H | (j & o & t & Hj & H)]%IH.
  - apply referenceStep_lookup in H as [H | (o & t & H)]; [by left|].
    right. exists i, o, t. split; [apply list_elem_of_here | done].
  - right. exists j, o, t. split; [by apply list_elem_of_further | done].
Qed.

Lemma referenceStep_keeps (m : gmap (list N) (list N)) (i : nat) (k : list N) :
  is_Some (m !! k) → is_Some (referenceStep originals translations m i !! k).
Proof.
  intros Hk. unfold referenceStep.
  destruct (originals !! i) as [o|]; [|done].
  destruct (translations !! i) as [t|]; [|done].
  destruct (_ && _); [|done].
  destruct (decide (trim (originalText o) = k)) as [<- | Hne].
  - rewrite lookup_insert_eq. by eexists.
  - by rewrite lookup_insert_ne.
Qed.

Lemma referenceFold_keeps (l : list nat) (k : list N) :
  ∀ m, is_Some (m !! k) →
       is_Some (fold_left (referenceStep originals translations) l m !! k).
Proof.
  induction l as [|i l IH]; intros m Hk; cbn [fold_left]; [done|].
  by apply IH, referenceStep_keeps.
Qed.

End ReferenceMapMore.

(** X6. The keys of the reference map are the trimmed texts of the
    original blocks that have a translated block at their position, and
    the value of a key is the non-empty trimmed text of the translated
    block at a position where the key stands. *)
Theorem createReferenceMap_entries (A B : list N) (k : list N) :
  (is_Some (createReferenceMap A B !! k)
   ↔ ∃ i o, (i < length (parseSRT B))%nat ∧ parseSRT A !! i = Some o
            ∧ k = trim (originalText o))
  ∧ ∀ v, createReferenceMap A B !! k = Some v →
      ∃ i o t, parseSRT A !! i = Some o ∧ parseSRT B !! i = Some t
               ∧ k = trim (originalText o) ∧ v = trim (originalText t)
               ∧ v ≠ [].
Proof.
  assert (Hsound : ∀ v, createReferenceMap A B !! k = Some v →
            ∃ i o t, parseSRT A !! i = Some o ∧ parseSRT B !! i = Some t
                     ∧ k = trim (originalText o) ∧ v = trim (originalText t)
                     ∧ v ≠ []).
  { intros v Hv. unfold createReferenceMap in Hv.
    apply referenceFold_lookup in Hv as [Hv | (i & o & t & _ & Ho & Ht & Hk & Hv & _ & Hne)].
    - by rewrite lookup_empty in Hv.
    - by exists i, o, t. }
  split; [|exact Hsound]. split.
  - intros [v Hv]. destruct (Hsound v Hv) as (i & o & t & Ho & Ht & Hk & _).
    exists i, o. split; [by apply lookup_lt_Some in Ht | done].
  - intros (i & o & Hi & Ho & ->). unfold createReferenceMap.
    set (count := Nat.min _ _).
    assert (Hcount : (i < count)%nat).
    { apply lookup_lt_Some in Ho. unfold count. lia. }
    destruct (lookup_lt_is_Some_2 (parseSRT B) i Hi) as [t Ht].
    replace count with (i + (1 + (count - i - 1)))%nat by lia.
    rewrite !seq_app, !fold_left_app. simpl seq at 2. cbn [fold_left].
    apply referenceFold_keeps.
    rewrite (referenceStep_set _ _ _ i o t); [by eexists | done | done | |].
    + apply (parseSRT_trim_text_nonempty A), list_elem_of_lookup. by exists i.
    + apply (parseSRT_trim_text_nonempty B), list_elem_of_lookup. by exists i.
Qed.

(** ** More on extractStyleExamples *)

Section StyleMore.

Lemma replaceAll_noCU (c d : N) (s : list N) :
  c ≠ d → noCU c (replaceAll c d s) = true.
Proof.
  intros Hcd. induction s as [|x s IH]; [done|]. unfold replaceAll in *.
  cbn [map]. apply noCU_cons. split; [|done].
  destruct (x =? c) eqn:E; [congruence|]. by apply N.eqb_neq.
Qed.

Lemma styleLoop_sublist (blocks : list SrtBlock) :
  ∀ acc, ∃ ext, styleLoop blocks acc = acc ++ ext
                ∧ ext `sublist_of` map styleExample blocks.
Proof.
  induction blocks as [|block rest IH]; intros acc; cbn [styleLoop map].
  - exists []. by rewrite app_nil_r.
  - destruct (negb (truthy (translatedText block))).
    { destruct (IH acc) as (ext & -> & Hsub). exists ext.
      split; [done | by apply sublist_cons]. }
    cbv zeta. destruct (styleIncluded acc block).
    + destruct (40 <=? length (acc ++ [styleExample block]))%nat.
      * exists [styleExample block]. split; [done|].
        apply sublist_skip, sublist_nil_l.
      * destruct (IH (acc ++ [styleExample block])) as (ext & -> & Hsub).
        exists (styleExample block :: ext). rewrite <- app_assoc.
        split; [done | by apply sublist_skip].
    + destruct (40 <=? length acc)%nat.
      * exists []. rewrite app_nil_r. split; [done | apply sublist_nil_l].
      * destruct (IH acc) as (ext & -> & Hsub). exists ext.
        split; [done | by apply sublist_cons].
Qed.

End StyleMore.

(** X7. The style examples are examples of aligned pairs, each pair used
    at most once and in the order of the alignment, and neither field of
    an example holds a line feed. *)
Theorem extractStyleExamples_sublist (originalSrt translatedSrt : list N) :
  extractStyleExamples originalSrt translatedSrt
  `sublist_of` map styleExample (alignSrts originalSrt translatedSrt)
  ∧ Forall (λ e, noCU LF (original e) = true ∧ noCU LF (translated e) = true)
           (extractStyleExamples originalSrt translatedSrt).
Proof.
  unfold extractStyleExamples.
  destruct (styleLoop_sublist (alignSrts originalSrt translatedSrt) [])
    as (ext & -> & Hsub).
  cbn [app]. split; [done|]. apply Forall_forall. intros e He.
  pose proof (elem_of_sublist _ _ _ He Hsub) as Hin.
  apply list_elem_of_fmap in Hin as (b & Hb & _). subst e.
  split; by apply replaceAll_noCU.
Qed.

(** ** More on getTrainingExamples *)

Section SamplerMore.

Variable limit : Z.

(** Whatever the limit, the inner loop appends examples of the blocks in
    order; it returns only after an append. *)
Lemma pushBlocks_prefix (bs : list SrtBlock) :
  ∀ acc, match pushBlocks limit bs acc with
         | Return r => ∃ k, r = acc ++ take (S k) (map trainingExample bs)
                            ∧ (k < length bs)%nat
         | Continue r => r = acc ++ map trainingExample bs
         end.
Proof.
  induction bs as [|block rest IH]; intros acc; cbn [pushBlocks map].
  - by rewrite app_nil_r.
  - destruct (limit <=? _)%Z.
    + exists 0%nat. cbn. split; [done | lia].
    + specialize (IH (acc ++ [trainingExample block])).
      destruct (pushBlocks limit rest _) as [r|r].
      * by rewrite IH, <- app_assoc.
      * destruct IH as (k & -> & Hk). exists (S k).
        rewrite <- app_assoc. cbn. split; [done | lia].
Qed.

Lemma projectLoop_prefix (ps : list TranslationProject) :
  ∀ acc, ∃ n, projectLoop limit ps acc
              = acc ++ take n (concat (map projectExamples ps)).
Proof.
  induction ps as [|p rest IH]; intros acc; cbn [projectLoop map concat].
  - exists 0%nat. by rewrite app_nil_r.
  - pose proof (pushBlocks_prefix (take 10 (List.filter validBlock (blocks p))) acc)
      as Hpush.
    fold (projectExamples p) in Hpush.
    destruct (pushBlocks limit _ acc) as [r|r].
    + subst r. destruct (IH (acc ++ projectExamples p)) as [n ->].
      exists (length (projectExamples p) + n)%nat.
      by rewrite <- app_assoc, take_app_add.
    + destruct Hpush as (k & -> & Hk). exists (S k).
      rewrite take_app_le; [done|].
      unfold projectExamples. rewrite length_map. lia.
Qed.

Hypothesis limit_nonpos : (limit ≤ 0)%Z.

Lemma projectLoop_nonpos (ps : list TranslationProject) :
  projectLoop limit ps [] = take 1 (concat (map projectExamples ps)).
Proof using limit_nonpos.
  induction ps as [|p rest IH]; [done|]. cbn [projectLoop map concat].
  fold (projectExamples p). unfold projectExamples at 1 2.
  destruct (take 10 (List.filter validBlock (blocks p))) as [|b bs]; [exact IH|].
  cbn [pushBlocks map app]. replace (limit <=? _)%Z with true; [done|].
  symmetry. apply Z.leb_le. cbn. lia.
Qed.

End SamplerMore.

(** X8. With a limit of 0 or less, [getTrainingExamples] returns the
    first example of the newest qualifying project that has a valid
    block, and nothing when there is none. *)
Theorem getTrainingExamples_nonpos (limit : Z) (stored : list TranslationProject) :
  (limit ≤ 0)%Z →
  getTrainingExamples limit stored
  = take 1 (concat (map projectExamples
                      (List.filter isTrainingProject (getAllProjects stored)))).
Proof. intros Hlimit. unfold getTrainingExamples. by apply projectLoop_nonpos. Qed.

Lemma getTrainingExamples_nonpos_witness :
  (-3 ≤ 0)%Z
  ∧ getTrainingExamples (-3) sampleStore
    = take 1 (concat (map projectExamples
                        (List.filter isTrainingProject (getAllProjects sampleStore)))).
Proof. split; [lia|]. apply getTrainingExamples_nonpos. lia. Defined.

(** X9. Whatever the limit, the training examples are a prefix of the
    examples of the first 10 valid blocks of the qualifying projects,
    newest first; each is the example of a stored block with a
    translation whose original text is longer than 10 code units and not
    all digits, and has no line feed in either field. *)
Theorem getTrainingExamples_sound (limit : Z) (stored : list TranslationProject) :
  (∃ n, getTrainingExamples limit stored
        = take n (concat (map projectExamples
                            (List.filter isTrainingProject (getAllProjects stored)))))
  ∧ ∀ e, e ∈ getTrainingExamples limit stored →
      ∃ p b, p ∈ stored ∧ isTrainingProject p = true ∧ b ∈ blocks p
             ∧ truthy (translatedText b) = true
             ∧ (10 < length (originalText b))%nat
             ∧ allDigits (originalText b) = false
             ∧ e = trainingExample b
             ∧ length (original e) = length (originalText b)
             ∧ noCU LF (original e) = true ∧ noCU LF (translated e) = true.
Proof.
  unfold getTrainingExamples.
  destruct (projectLoop_prefix limit
              (List.filter isTrainingProject (getAllProjects stored)) [])
    as [n Hn].
  cbn [app] in Hn. split; [by exists n|]. rewrite Hn. intros e He.
  apply (subseteq_take n), list_elem_of_In, in_concat in He as (es & Hes & He).
  apply list_elem_of_In, list_elem_of_fmap in Hes as (p & -> & Hp).
  apply list_elem_of_In, filter_In in Hp as [Hp Htrain].
  apply list_elem_of_In in Hp. rewrite getAllProjects_perm in Hp.
  unfold projectExamples in He.
  apply list_elem_of_In, list_elem_of_fmap in He as (b & -> & Hb).
  apply (subseteq_take 10), list_elem_of_In, filter_In in Hb as [Hb Hvalid].
  apply list_elem_of_In in Hb.
  unfold validBlock in Hvalid.
  rewrite !andb_true_iff, negb_true_iff, Nat.ltb_lt in Hvalid.
  destruct Hvalid as [[[_ Ht] Hlen] Hdigits].
  exists p, b. repeat split; try done.
  - cbn. unfold replaceAll. by rewrite length_map.
  - by apply replaceAll_noCU.
  - by apply replaceAll_noCU.
Qed.

(** ** translateBatch *)

Section TranslateBatchProperties.

Variable generateContent : nat → list (Z * list N) → option (list (Z * list N)).

(** What every step keeps of a block. *)
Let kept (b : SrtBlock) : Z * list N * list N * list N :=
  (id b, startTime b, endTime b, originalText b).

(** The prompt item of a block. *)
Let item (b : SrtBlock) : Z * list N := (id b, originalText b).

Lemma prefill_kept (rm : option (gmap (list N) (list N))) (b : SrtBlock) :
  kept (prefill rm b) = kept b.
Proof.
  unfold prefill. destruct rm as [m|]; [|done].
  by destruct (m !! trim (originalText b)).
Qed.

Lemma applyTranslation_kept (l : list SrtBlock) (t : Z * list N) :
  map kept (applyTranslation l t) = map kept l.
Proof.
  unfold applyTranslation.
  destruct (list_find _ l) as [[k b]|] eqn:Hfind; [|done].
  apply list_find_Some in Hfind as (Hk & _ & _).
  apply list_eq. intros j. rewrite !list_lookup_fmap.
  destruct (decide (j = k)) as [-> | Hne].
  - rewrite list_lookup_insert_eq by by apply lookup_lt_Some in Hk.
    by rewrite Hk.
  - by rewrite list_lookup_insert_ne.
Qed.

Lemma applyTranslations_kept (ts : list (Z * list N)) :
  ∀ l, map kept (fold_left applyTranslation ts l) = map kept l.
Proof.
  induction ts as [|t ts IH]; intros l; cbn [fold_left]; [done|].
  by rewrite IH, applyTranslation_kept.
Qed.

Lemma batchStep_kept (len : nat) (bts : list SrtBlock) (i : nat) (st : BatchState) :
  map kept (resultBlocks (batchStep generateContent len bts i st))
  = map kept (resultBlocks st).
Proof.
  unfold batchStep. cbn [resultBlocks report].
  destruct (generateContent i _); [apply applyTranslations_kept | done].
Qed.

Lemma batchLoop_kept (len : nat) (bts : list SrtBlock) (fuel : nat) :
  ∀ i st, map kept (resultBlocks (batchLoop generateContent fuel len bts i st))
          = map kept (resultBlocks st).
Proof.
  induction fuel as [|fuel IH]; intros i st; cbn [batchLoop]; [done|].
  destruct (i <? length bts)%nat; [|done]. by rewrite IH, batchStep_kept.
Qed.


(** The requests sent from [i] on hold the items of the blocks from [i]
    on, in order, at most [BATCH_SIZE] and at least one in each. *)
Lemma batchLoop_requests (len : nat) (bts : list SrtBlock) (fuel : nat) :
  ∀ i st, (length bts ≤ i + fuel)%nat →
  ∃ sent, requests (batchLoop generateContent fuel len bts i st)
          = requests st ++ sent
          ∧ concat sent = map item (drop i bts)
          ∧ Forall (λ r, (1 ≤ length r ≤ BATCH_SIZE)%nat) sent
          ∧ (sent = [] ↔ (length bts ≤ i)%nat).
Proof.
  induction fuel as [|fuel IH]; intros i st Hfuel; cbn [batchLoop].
  - exists []. rewrite app_nil_r, drop_ge by lia. by repeat split; try lia.
  - destruct (i <? length bts)%nat eqn:Hi.
    + apply Nat.ltb_lt in Hi.
      destruct (IH (i + BATCH_SIZE)%nat (batchStep generateContent len bts i st))
        as (sent & -> & Hconcat & HF & _); [unfold BATCH_SIZE; lia|].
      exists (map item (take BATCH_SIZE (drop i bts)) :: sent).
      unfold batchStep at 1. cbn [requests report]. rewrite <- app_assoc.
      split; [done|]. split; [|split].
      * cbn [concat]. rewrite Hconcat, <- map_app. f_equal.
        by rewrite <- drop_drop, take_drop.
      * constructor; [|done]. rewrite length_map, length_take, length_drop.
        unfold BATCH_SIZE. lia.
      * split; [done | lia].
    + apply Nat.ltb_ge in Hi. exists []. rewrite app_nil_r, drop_ge by lia.
      by repeat split; try lia.
Qed.

End TranslateBatchProperties.

(** X10. Whatever the service answers, [translateBatch] returns as many
    blocks as it was given, with the id, times and original text of the
    given block at every position. *)
Theorem translateBatch_keeps_blocks
    (generateContent : nat → list (Z * list N) → option (list (Z * list N)))
    (blocks : list SrtBlock) (referenceMap : option (gmap (list N) (list N))) :
  map (λ b, (id b, startTime b, endTime b, originalText b))
      (resultBlocks (translateBatch generateContent blocks referenceMap))
  = map (λ b, (id b, startTime b, endTime b, originalText b)) blocks
  ∧ length (resultBlocks (translateBatch generateContent blocks referenceMap))
    = length blocks.
Proof.
  assert (H : map (λ b, (id b, startTime b, endTime b, originalText b))
                (resultBlocks (translateBatch generateContent blocks referenceMap))
              = map (λ b, (id b, startTime b, endTime b, originalText b)) blocks).
  { unfold translateBatch. destruct (_ =? 0)%nat.
    - cbn [resultBlocks]. rewrite map_map. apply map_ext. intros b.
      apply prefill_kept.
    - rewrite batchLoop_kept. cbn [resultBlocks]. rewrite map_map.
      apply map_ext. intros b. apply prefill_kept. }
  split; [exact H|]. apply (f_equal length) in H. by rewrite !length_map in H.
Qed.



(** X12. The requests [translateBatch] sends hold, in order and each
    once, the id and original text of the blocks that have no translation
    after the pre-fill, at most 20 and at least one in a request; none is
    sent exactly when no such block is left. *)
Theorem translateBatch_requests
    (generateContent : nat → list (Z * list N) → option (list (Z * list N)))
    (blocks : list SrtBlock) (referenceMap : option (gmap (list N) (list N))) :
  let blocksToTranslate :=
    List.filter (λ b, negb (truthy (translatedText b)))
                (map (prefill referenceMap) blocks) in
  let sent := requests (translateBatch generateContent blocks referenceMap) in
  concat sent = map (λ b, (id b, originalText b)) blocksToTranslate
  ∧ Forall (λ r, (1 ≤ length r ≤ 20)%nat) sent
  ∧ (sent = [] ↔ blocksToTranslate = []).
Proof.
  intros bts sent. subst sent. unfold translateBatch. fold bts.
  destruct (length bts =? 0)%nat eqn:E.
  - apply Nat.eqb_eq in E. destruct bts; [done | discriminate].
  - apply Nat.eqb_neq in E.
    destruct (batchLoop_requests generateContent (length blocks) bts (length bts) 0
                {| resultBlocks := map (prefill referenceMap) blocks;
                   progressCalls := []; requests := [] |})
      as (sent & -> & Hconcat & HF & Hnil); [lia|].
    cbn [requests app]. split; [done|]. split; [done|].
    rewrite Hnil. destruct bts; [done|]. split; [simpl; lia | done].
Qed.

Section TranslateBatchProgress.

Variable generateContent : nat → list (Z * list N) → option (list (Z * list N)).

Lemma StronglySorted_snoc_le (l : list nat) (x : nat) :
  StronglySorted le l → Forall (λ c, c ≤ x)%nat l → StronglySorted le (l ++ [x]).
Proof.
  intros Hl Hx. apply StronglySorted_app_2; [|done|repeat constructor].
  intros c y Hc ->%list_elem_of_singleton.
  by apply (proj1 (Forall_forall _ _) Hx).
Qed.

(** The counts reported from [i] on never decrease; once a batch has been
    processed the last count is the number of blocks. *)
Lemma batchLoop_progress (len : nat) (bts : list SrtBlock) (fuel : nat) :
  (length bts ≤ len)%nat →
  ∀ i st, (length bts ≤ i + fuel)%nat →
  StronglySorted le (map fst (progressCalls st)) →
  Forall (λ c, c ≤ len - length bts + Nat.min i (length bts))%nat
         (map fst (progressCalls st)) →
  (i = 0%nat ∨ last (map fst (progressCalls st))
               = Some (len - length bts + Nat.min i (length bts))%nat) →
  StronglySorted le
    (map fst (progressCalls (batchLoop generateContent fuel len bts i st)))
  ∧ ((0 < length bts)%nat →
     last (map fst (progressCalls (batchLoop generateContent fuel len bts i st)))
     = Some len).
Proof.
  intros Hlen. induction fuel as [|fuel IH]; intros i st Hfuel Hsorted Hbound Hlast;
    cbn [batchLoop].
  - split; [done|]. intros Hpos. destruct Hlast as [-> | ->]; [lia|].
    f_equal. lia.
  - destruct (i <? length bts)%nat eqn:Hi.
    + apply Nat.ltb_lt in Hi. apply IH; [unfold BATCH_SIZE; lia | | |].
      * unfold batchStep. cbn [progressCalls report]. rewrite !map_app. cbn [map fst].
        apply StronglySorted_snoc_le; [apply StronglySorted_snoc_le|].
        -- done.
        -- eapply Forall_impl; [exact Hbound|]. cbn. intros c Hc. lia.
        -- apply Forall_app. split; [|apply Forall_singleton; unfold BATCH_SIZE; lia].
           eapply Forall_impl; [exact Hbound|]. cbn. unfold BATCH_SIZE. intros c Hc. lia.
      * unfold batchStep. cbn [progressCalls report]. rewrite !map_app. cbn [map fst].
        rewrite !Forall_app. split; [split|].
        -- eapply Forall_impl; [exact Hbound|]. cbn. unfold BATCH_SIZE. intros c Hc. lia.
        -- apply Forall_singleton. unfold BATCH_SIZE. lia.
        -- apply Forall_singleton. unfold BATCH_SIZE. lia.
      * right. unfold batchStep. cbn [progressCalls report]. rewrite !map_app.
        cbn [map fst]. by rewrite last_snoc.
    + apply Nat.ltb_ge in Hi. split; [done|]. intros Hpos.
      destruct Hlast as [-> | ->]; [lia|]. f_equal. lia.
Qed.

End TranslateBatchProgress.

(** X13. The counts [translateBatch] passes to [onProgress] never
    decrease, and the last one is the number of blocks given. *)
Theorem translateBatch_progress
    (generateContent : nat → list (Z * list N) → option (list (Z * list N)))
    (blocks : list SrtBlock) (referenceMap : option (gmap (list N) (list N))) :
  StronglySorted le
    (map fst (progressCalls (translateBatch generateContent blocks referenceMap)))
  ∧ last (map fst (progressCalls (translateBatch generateContent blocks referenceMap)))
    = Some (length blocks).
Proof.
  unfold translateBatch.
  set (bts := List.filter _ (map (prefill referenceMap) blocks)).
  assert (Hlen : (length bts ≤ length blocks)%nat).
  { unfold bts. rewrite <- (length_map (prefill referenceMap) blocks).
    apply filter_length_le. }
  destruct (length bts =? 0)%nat eqn:E.
  - cbn [progressCalls map fst]. split; [repeat constructor | done].
  - apply Nat.eqb_neq in E.
    destruct (batchLoop_progress generateContent (length blocks) bts (length bts)
                Hlen 0
                {| resultBlocks := map (prefill referenceMap) blocks;
                   progressCalls := []; requests := [] |})
      as [Hsorted Hlast]; cbn [progressCalls map]; try done; [constructor | by left |].
    split; [done|]. apply Hlast. lia.
Qed.

Section TranslateBatchAnswers.

Variable generateContent : nat → list (Z * list N) → option (list (Z * list N)).








(** A block behind another block of the same id is out of reach of every
    translation. *)
Lemma applyTranslation_shadowed (l : list SrtBlock) (t : Z * list N)
    (i j : nat) (bi bj : SrtBlock) :
  (i < j)%nat → l !! i = Some bi → l !! j = Some bj → id bi = id bj →
  applyTranslation l t !! j = Some bj
  ∧ ∃ bi', applyTranslation l t !! i = Some bi' ∧ id bi' = id bj.
Proof.
  intros Hij Hi Hj Hid. unfold applyTranslation.
  destruct (list_find _ l) as [[k b]|] eqn:Hfind; [|by eauto].
  apply list_find_Some in Hfind as (Hk & Hb & Hfirst).
  assert (Hkj : k ≠ j).
  { intros ->. apply (Hfirst i bi Hi Hij). congruence. }
  split; [by rewrite list_lookup_insert_ne|].
  destruct (decide (k = i)) as [-> | Hki].
  - rewrite list_lookup_insert_eq by by apply lookup_lt_Some in Hi.
    eexists. split; [done|]. cbn. congruence.
  - rewrite list_lookup_insert_ne by done. eauto.
Qed.

Lemma applyTranslations_shadowed (ts : list (Z * list N)) (i j : nat) (bj : SrtBlock) :
  (i < j)%nat →
  ∀ l bi, l !! i = Some bi → l !! j = Some bj → id bi = id bj →
  fold_left applyTranslation ts l !! j = Some bj.
Proof.
  intros Hij. induction ts as [|t ts IH]; intros l bi Hi Hj Hid; [done|].
  cbn [fold_left].
  destruct (applyTranslation_shadowed l t i j bi bj Hij Hi Hj Hid)
    as (Hj' & bi' & Hi' & Hid').
  by apply (IH _ bi').
Qed.

Lemma batchLoop_shadowed (len : nat) (bts : list SrtBlock) (fuel : nat)
    (i j : nat) (bj : SrtBlock) :
  (i < j)%nat →
  ∀ k st bi, resultBlocks st !! i = Some bi → resultBlocks st !! j = Some bj →
             id bi = id bj →
  resultBlocks (batchLoop generateContent fuel len bts k st) !! j = Some bj.
Proof.
  intros Hij. induction fuel as [|fuel IH]; intros k st bi Hi Hj Hid;
    cbn [batchLoop]; [done|].
  destruct (k <? length bts)%nat; [|done].
  pose proof (batchStep_kept generateContent len bts k st) as Hkept.
  assert (Hj' : resultBlocks (batchStep generateContent len bts k st) !! j = Some bj).
  { unfold batchStep. cbn [resultBlocks report].
    destruct (generateContent k _); [|done].
    by apply (applyTranslations_shadowed _ i j bj Hij _ bi). }
  apply (f_equal (λ l, l !! i)) in Hkept. rewrite !list_lookup_fmap, Hi in Hkept.
  destruct (resultBlocks (batchStep generateContent len bts k st) !! i) as [bi'|] eqn:Hi';
    [|done].
  apply (IH _ _ bi'); [done | done |]. cbn in Hkept. congruence.
Qed.

End TranslateBatchAnswers.



(** X15. A block that stands behind another block with the same id is
    never given a translation by the service: it comes back as the
    pre-fill left it, whatever the service answers. *)
Theorem translateBatch_shadowed
    (generateContent : nat → list (Z * list N) → option (list (Z * list N)))
    (blocks : list SrtBlock) (referenceMap : option (gmap (list N) (list N)))
    (i j : nat) (bi bj : SrtBlock) :
  (i < j)%nat → blocks !! i = Some bi → blocks !! j = Some bj → id bi = id bj →
  resultBlocks (translateBatch generateContent blocks referenceMap) !! j
  = Some (prefill referenceMap bj).
Proof.
  intros Hij Hi Hj Hid. unfold translateBatch.
  assert (Hi' : map (prefill referenceMap) blocks !! i = Some (prefill referenceMap bi))
    by by rewrite list_lookup_fmap, Hi.
  assert (Hj' : map (prefill referenceMap) blocks !! j = Some (prefill referenceMap bj))
    by by rewrite list_lookup_fmap, Hj.
  destruct (_ =? 0)%nat; [done|].
  apply (batchLoop_shadowed generateContent _ _ _ i j _ Hij _ _ (prefill referenceMap bi));
    [done | done |].
  pose proof (prefill_kept referenceMap bi) as H1.
  pose proof (prefill_kept referenceMap bj) as H2.
  apply (f_equal (λ t, t.1.1.1)) in H1, H2. cbn in H1, H2. congruence.
Qed.

Lemma translateBatch_shadowed_witness :
  (1 < 2)%nat ∧ [b1; b2; b3] !! 1%nat = Some b2 ∧ [b1; b2; b3] !! 2%nat = Some b3
  ∧ id b2 = id b3
  ∧ resultBlocks (translateBatch
                    (λ _ promptData, Some (map (λ it, (it.1, lit "Mya " ++ it.2)) promptData))
                    [b1; b2; b3] None) !! 2%nat
    = Some (prefill None b3).
Proof.
  split; [lia|]. split; [done|]. split; [done|]. split; [done|].
  apply (translateBatch_shadowed _ [b1; b2; b3] None 1 2 b2 b3);
    [lia | reflexivity..].
Defined.

(** ** The examples of differences *)

Section DiffExamples.

Variables aiMap humanMap : gmap Z (list N).

Lemma diffLoop_inv (originalBlocks : list SrtBlock) :
  ∀ acc, (length acc < 20)%nat →
  ∃ ext, diffLoop aiMap humanMap originalBlocks acc = acc ++ ext
         ∧ (length (acc ++ ext) ≤ 20)%nat
         ∧ ∀ e, e ∈ ext →
             ∃ orig ai human,
               orig ∈ originalBlocks
               ∧ aiMap !! id orig = Some ai ∧ humanMap !! id orig = Some human
               ∧ ai ≠ [] ∧ human ≠ [] ∧ trim ai ≠ trim human
               ∧ e = {| diffOriginal := replaceAll LF SP (originalText orig);
                        aiDraft := replaceAll LF SP ai;
                        humanEdit := replaceAll LF SP human |}.
Proof.
  induction originalBlocks as [|orig rest IH]; intros acc Hacc; cbn [diffLoop].
  - exists []. rewrite app_nil_r. split; [done|]. split; [lia|].
    intros e He. by apply elem_of_nil in He.
  - cbv zeta. destruct (differs (aiMap !! id orig) (humanMap !! id orig)) eqn:Hd.
    + assert (Hhere : ∃ ai human,
                aiMap !! id orig = Some ai ∧ humanMap !! id orig = Some human
                ∧ ai ≠ [] ∧ human ≠ [] ∧ trim ai ≠ trim human).
      { unfold differs in Hd. rewrite !andb_true_iff, negb_true_iff in Hd.
        destruct Hd as [[Hai Hhu] Hne]. apply bool_decide_eq_false in Hne.
        destruct (aiMap !! id orig) as [[|c ai]|]; try done.
        destruct (humanMap !! id orig) as [[|d hu]|]; try done.
        by exists (c :: ai), (d :: hu). }
      destruct Hhere as (ai & human & Hai & Hhu & Hane & Hhne & Hne).
      rewrite Hai, Hhu. cbn [from_option]. unfold Datatypes.id.
      set (ex := {| diffOriginal := replaceAll LF SP (originalText orig);
                    aiDraft := replaceAll LF SP ai;
                    humanEdit := replaceAll LF SP human |}).
      destruct (20 <=? length (acc ++ [ex]))%nat eqn:H20.
      * exists [ex]. split; [done|]. rewrite length_app in *. cbn in *.
        split; [lia|]. intros e ->%list_elem_of_singleton.
        exists orig, ai, human. split; [apply list_elem_of_here | done].
      * apply Nat.leb_gt in H20.
        destruct (IH (acc ++ [ex]) H20) as (ext & -> & Hlen & Hprov).
        exists (ex :: ext). rewrite <- app_assoc in *. split; [done|]. split; [done|].
        intros e [-> | He]%elem_of_cons.
        -- exists orig, ai, human. split; [apply list_elem_of_here | done].
        -- destruct (Hprov e He) as (o & a & h & Ho & H).
           exists o, a, h. split; [by apply list_elem_of_further | done].
    + destruct (20 <=? length acc)%nat eqn:H20; [apply Nat.leb_le in H20; lia|].
      destruct (IH acc Hacc) as (ext & -> & Hlen & Hprov).
      exists ext. split; [done|]. split; [done|].
      intros e He. destruct (Hprov e He) as (o & a & h & Ho & H).
      exists o, a, h. split; [by apply list_elem_of_further | done].
Qed.

End DiffExamples.

Lemma diffLoop_same (m : gmap Z (list N)) (originalBlocks : list SrtBlock) :
  diffLoop m m originalBlocks [] = [].
Proof.
  induction originalBlocks as [|orig rest IH]; [done|]. cbn [diffLoop].
  replace (differs (m !! id orig) (m !! id orig)) with false; [exact IH|].
  unfold differs. rewrite bool_decide_eq_true_2 by done.
  by rewrite andb_false_r.
Qed.

(** X16. At most 20 examples of differences are collected, and each comes
    from an original block for whose id the AI track and the human track
    both have a non-empty text, the two differing after trimming. *)
Theorem diffExamplesOf_sound (originalContent aiContent humanContent : list N) :
  (length (diffExamplesOf originalContent aiContent humanContent) ≤ 20)%nat
  ∧ ∀ e, e ∈ diffExamplesOf originalContent aiContent humanContent →
      ∃ orig ai human,
        orig ∈ parseSRT originalContent
        ∧ textMapOf (parseSRT aiContent) !! id orig = Some ai
        ∧ textMapOf (parseSRT humanContent) !! id orig = Some human
        ∧ ai ≠ [] ∧ human ≠ [] ∧ trim ai ≠ trim human
        ∧ e = {| diffOriginal := replaceAll LF SP (originalText orig);
                 aiDraft := replaceAll LF SP ai;
                 humanEdit := replaceAll LF SP human |}.
Proof.
  unfold diffExamplesOf.
  destruct (diffLoop_inv (textMapOf (parseSRT aiContent))
              (textMapOf (parseSRT humanContent))
              (parseSRT originalContent) []) as (ext & -> & Hlen & Hprov); [simpl; lia|].
  by split.
Qed.

(** X17. When the AI track and the human track are the same content, no
    example of difference is collected. *)
Theorem diffExamplesOf_same (originalContent translatedContent : list N) :
  diffExamplesOf originalContent translatedContent translatedContent = [].
Proof. apply diffLoop_same. Qed.

(** ** Serializing what was parsed from a serialization *)

(** X18. For well-formed blocks, serializing what is parsed from the
    serialization gives the serialization again. *)
Theorem stringifySRT_parseSRT_stringifySRT (B : list SrtBlock) :
  Forall (λ b, wellFormed b = true) B →
  stringifySRT (parseSRT (stringifySRT B)) = stringifySRT B.
Proof.
  intros Hwf. rewrite parse_serialized by done. unfold stringifySRT. f_equal.
  rewrite map_map. apply map_ext_Forall. eapply Forall_impl; [exact Hwf|].
  cbn. intros b Hb. unfold wellFormed in Hb.
  rewrite !andb_true_iff in Hb. destruct Hb as [_ Htext].
  unfold blockToString. rewrite (textContent_clean b Htext).
  unfold reparsed, textContent.
  cbn [id startTime endTime originalText translatedText truthy]. done.
Qed.

Lemma stringifySRT_parseSRT_stringifySRT_witness :
  Forall (λ b, wellFormed b = true) translatedPair
  ∧ stringifySRT (parseSRT (stringifySRT translatedPair)) = stringifySRT translatedPair.
Proof.
  assert (H : Forall (λ b, wellFormed b = true) translatedPair)
    by (repeat constructor; vm_compute; reflexivity).
  split; [exact H|]. exact (stringifySRT_parseSRT_stringifySRT translatedPair H).
Defined.
